(** * seo-index-checker: bulk index check and page diagnosis

    A shallow embedding of the two core functions of [main.py],
    [check_index_bulk] and [get_ai_diagnosis], and the properties of
    them that the specification states.

    Python values are modelled as follows.
    - [str] is [string]; a character is a code point below 256.
    - the value returned by [response.json()] is a [json] tree.
    - the dictionary [indexed_map] is a [gmap string bool].
    - the outside world (search backend, page fetch, language model) is
      an oracle passed as an argument; the calls made to it, the
      [print]s and the [time.sleep]s are recorded in a trace. *)

From Stdlib Require Import String Ascii ZArith Lia DecimalString.
From stdpp Require Import base option list gmap strings.

Local Open Scope nat_scope.
#[local] Set Warnings "-clear-no-such-hyp".

(** ** Python string primitives *)

(** [str.isspace] on one character (code points below 256). *)
Definition isspace (c : ascii) : bool :=
  let n := nat_of_ascii c in
  ((9 <=? n) && (n <=? 13)) || ((28 <=? n) && (n <=? 31))
  || (n =? 32) || (n =? 133) || (n =? 160).

Definition is_slash (c : ascii) : bool := Ascii.eqb c "/"%char.

(** [s.lstrip(chars)]: drop the leading characters that satisfy [p]. *)
Fixpoint lstrip_chars (p : ascii -> bool) (s : string) : string :=
  match s with
  | EmptyString => EmptyString
  | String c s' => if p c then lstrip_chars p s' else s
  end.

(** [s.rstrip(chars)]: drop the trailing characters that satisfy [p]. *)
Fixpoint rstrip_chars (p : ascii -> bool) (s : string) : string :=
  match s with
  | EmptyString => EmptyString
  | String c s' =>
      match rstrip_chars p s' with
      | EmptyString => if p c then EmptyString else String c EmptyString
      | r => String c r
      end
  end.

(** [s.strip()] *)
Definition strip (s : string) : string :=
  rstrip_chars isspace (lstrip_chars isspace s).

(** [s.rstrip('/')] *)
Definition rstrip_slash (s : string) : string := rstrip_chars is_slash s.

(** [s.startswith(u)] *)
Fixpoint startswith (u s : string) : bool :=
  match u, s with
  | EmptyString, _ => true
  | String a u', String b s' => Ascii.eqb a b && startswith u' s'
  | String _ _, EmptyString => false
  end.

(** [u in s] for two strings: [u] occurs in [s] as a substring. *)
Fixpoint str_in (u s : string) : bool :=
  startswith u s
  || match s with
     | EmptyString => false
     | String _ s' => str_in u s'
     end.

(** [s[:n]] for [n >= 0]. *)
Fixpoint str_take (n : nat) (s : string) : string :=
  match n, s with
  | S n', String c s' => String c (str_take n' s')
  | _, _ => EmptyString
  end.

(** [str(n)] for an [int]. *)
Definition str_of_int (n : Z) : string :=
  NilZero.string_of_int (Z.to_int n).

(** The double-quote character. *)
Definition dquote : string := String (ascii_of_nat 34) EmptyString.

(** [l[lo:hi]] for [0 <= lo <= hi]. *)
Definition py_slice {A} (l : list A) (lo hi : nat) : list A :=
  take (hi - lo) (drop lo l).

(** [list(range(start, stop, step))] for [step > 0]. *)
Definition py_range (start stop step : nat) : list nat :=
  (λ k, start + k * step) <$> seq 0 ((stop - start + (step - 1)) / step).

(** ** JSON values, as Python sees them after [response.json()] *)

#[warnings="-register-all"]
Inductive json :=
  | JNull                                   (* None *)
  | JBool (b : bool)
  | JNum (n : Z)                            (* int or float *)
  | JStr (s : string)
  | JArr (xs : list json)                   (* list *)
  | JObj (kvs : list (string * json)).      (* dict, items in insertion order *)

(** [d.get(key)]: [None] when the key is absent. *)
Fixpoint dict_get (kvs : list (string * json)) (key : string) : option json :=
  match kvs with
  | [] => None
  | (k, v) :: rest => if String.eqb k key then Some v else dict_get rest key
  end.

(** [iter(v)]: the elements a [for] loop visits, [None] when [v] is not
    iterable ([TypeError]).  A dict yields its keys, a string its
    characters. *)
Definition py_iter (v : json) : option (list json) :=
  match v with
  | JArr xs => Some xs
  | JObj kvs => Some (JStr <$> kvs.*1)
  | JStr s => Some ((λ c, JStr (String c EmptyString)) <$> list_ascii_of_string s)
  | JNull | JBool _ | JNum _ => None
  end.

(** ** BulkIndexChecker: [check_index_bulk] *)

(** What one [requests.post] to the search backend gives back. *)
Inductive response :=
  | PostRaises
      (* [requests.post] raises (timeout, connection error, ...) *)
  | Response (status_code : Z) (body : option json).
      (* [body] is [response.json()], [None] when that call raises *)

(** The effects of [check_index_bulk], in the order they happen. *)
Inductive event :=
  | Post (api_key : string) (payload : json)   (* requests.post(endpoint, ...) *)
  | Print                                       (* print(...) *)
  | Sleep (seconds : nat).                      (* time.sleep(seconds) *)

(** The search backend: its answer to a request, given how many requests
    were issued before it. *)
Definition backend := nat -> string -> json -> response.

Record state := State {
  indexed_map : gmap string bool;
  trace : list event
}.

Definition emit (e : event) (st : state) : state :=
  State (indexed_map st) (trace st ++ [e]).

(** [indexed_map[url] = found] *)
Definition set_verdict (url : string) (found : bool) (st : state) : state :=
  State (<[url := found]> (indexed_map st)) (trace st).

Definition is_post (e : event) : bool :=
  match e with Post _ _ => true | _ => false end.

Definition is_sleep (e : event) : bool :=
  match e with Sleep _ => true | _ => false end.

(** The requests issued so far. *)
Definition posts (tr : list event) : list event := filter is_post tr.

(** The pauses made so far. *)
Definition sleeps (tr : list event) : list event := filter is_sleep tr.

Definition BATCH_SIZE : nat := 20.

(** [[{"q": f'"{u.strip()}"'} for u in batch_urls]] *)
Definition make_payload (batch_urls : list string) : json :=
  JArr ((λ u, JObj [("q", JStr (dquote +:+ strip u +:+ dquote))]) <$> batch_urls).

(** [item.get('link', '')], when [item] is a dict and the value is a
    string; [None] otherwise, where taking the link raises. *)
Definition item_get_link (item : json) : option string :=
  match item with
  | JObj kvs =>
      match dict_get kvs "link" with
      | None => Some EmptyString
      | Some (JStr link) => Some link
      | Some _ => None
      end
  | _ => None
  end.

(** [item.get('link', '').rstrip('/')]; [None] when it raises. *)
Definition item_link (item : json) : option string :=
  rstrip_slash <$> item_get_link item.

(** [any(needle in item.get('link', '').rstrip('/') for item in items)].
    [any] stops at the first item that matches; the items after it are
    not looked at. *)
Fixpoint any_link_contains (needle : string) (items : list json) : option bool :=
  match items with
  | [] => Some false
  | item :: rest =>
      link ← item_link item;
      if str_in needle link then Some true else any_link_contains needle rest
  end.

(** [iter(res.get('organic', []))]: the organic results of the
    result-set [res]; [None] when it raises: [res] is not a dict, or
    the value cannot be iterated. *)
Definition organic_items (res : json) : option (list json) :=
  match res with
  | JObj kvs => py_iter (default (JArr []) (dict_get kvs "organic"))
  | _ => None
  end.

(** Lines 64-65: [is_found] for [url] and its result-set [res]; [None]
    when the expression raises. *)
Definition is_found (url : string) (res : json) : option bool :=
  items ← organic_items res;
  any_link_contains (rstrip_slash (strip url)) items.

(** How the body of the [try] statement ends. *)
Inductive outcome :=
  | Completed (st : state)    (* falls through to the end of the [try] *)
  | Continued (st : state)    (* leaves through [continue] *)
  | Raised (st : state).      (* leaves through an exception *)

(** Lines 56-67: the loop over [enumerate(results)], from index [j]. *)
Fixpoint map_results (batch_urls : list string) (j : nat)
    (results : list json) (st : state) : outcome :=
  match results with
  | [] => Completed st
  | res :: rest =>
      match batch_urls !! j with
      | None => Completed st              (* j >= len(batch_urls): break *)
      | Some url =>
          match is_found url res with
          | None => Raised st
          | Some found =>
              map_results batch_urls (S j) rest (set_verdict url found st)
          end
      end
  end.

(** [for u in batch_urls: indexed_map[u] = False] *)
Definition mark_false (batch_urls : list string) (st : state) : state :=
  foldl (λ st u, set_verdict u false st) st batch_urls.

(** Lines 43-67: the body of the [try] statement. *)
Definition try_body (be : backend) (api_key : string)
    (batch_urls : list string) (payload : json) (st : state) : outcome :=
  let st' := emit (Post api_key payload) st in
  match be (length (posts (trace st))) api_key payload with
  | PostRaises => Raised st'
  | Response status_code body =>
      if bool_decide (status_code ≠ 200%Z) then
        Continued (mark_false batch_urls (emit Print st'))
      else
        match body ≫= py_iter with
        | None => Raised st'
        | Some results => map_results batch_urls 0 results st'
        end
  end.

(** Lines 37-76: one iteration of the loop over the batch offsets. *)
Definition loop_body (be : backend) (urls : list string) (api_key : string)
    (st : state) (i : nat) : state :=
  let batch_urls := py_slice urls i (i + BATCH_SIZE) in
  let payload := make_payload batch_urls in
  match try_body be api_key batch_urls payload st with
  | Continued st' => st'
  | Completed st' => emit (Sleep 1) st'
  | Raised st' => emit (Sleep 1) (mark_false batch_urls (emit Print st'))
  end.

(** The whole function, with its effects. *)
Definition check_index_bulk_run (be : backend) (urls : list string)
    (api_key : string) : state :=
  foldl (loop_body be urls api_key) (State ∅ [])
        (py_range 0 (length urls) BATCH_SIZE).

(** The value [check_index_bulk] returns. *)
Definition check_index_bulk (be : backend) (urls : list string)
    (api_key : string) : gmap string bool :=
  indexed_map (check_index_bulk_run be urls api_key).

(** The batches, in the order the loop visits them. *)
Definition batches (urls : list string) : list (list string) :=
  (λ i, py_slice urls i (i + BATCH_SIZE)) <$> py_range 0 (length urls) BATCH_SIZE.

(** ** PageDiagnoser: [get_ai_diagnosis] *)

(** What the [except] clauses of [get_ai_diagnosis] see of an exception
    [e]: [isinstance(e, requests.exceptions.Timeout)],
    [isinstance(e, requests.exceptions.ConnectionError)] and [str(e)].
    [ConnectTimeout] is an instance of both classes. *)
Record exn := Exn {
  is_timeout : bool;
  is_connection_error : bool;
  message : string
}.

(** A computation that returns a value or raises. *)
Inductive result (A : Type) :=
  | Ok (a : A)
  | Raise (e : exn).
Arguments Ok {A} a.
Arguments Raise {A} e.

#[global] Instance result_ret : MRet result := λ A a, Ok a.

#[global] Instance result_bind : MBind result := λ A B k r,
  match r with
  | Ok a => k a
  | Raise e => Raise e
  end.

(** The response of [requests.get]. *)
Record page := Page {
  status_code : Z;
  text : string
}.

(** [requests.get(url, headers=headers, timeout=timeout)] *)
Definition fetcher := string -> list (string * string) -> nat -> result page.

(** [gemini_client.models.generate_content(model=model, contents=prompt)]
    followed by [.text], which is a string or [None]. *)
Definition llm := string -> string -> result (option string).

(** The operations of the BeautifulSoup library that the function uses.
    The constructor [BeautifulSoup(text, 'html.parser')] raises on markup
    that the parser rejects: [parser_rejects text] is then the message
    [str(e)] of the exception, which is none of the two exceptions of
    [requests]; otherwise the constructor returns [html_parser text]. *)
Class BeautifulSoup (soup tag : Type) := {
  parser_rejects : string -> option string;
    (* str(e), when BeautifulSoup(text, 'html.parser') raises e *)
  html_parser : string -> soup;
    (* BeautifulSoup(text, 'html.parser'), when it returns *)
  soup_title : soup -> option tag;
    (* soup.title *)
  tag_string : tag -> option string;
    (* tag.string *)
  extract_all : list string -> soup -> soup;
    (* for t in soup(names): t.extract() *)
  get_text : string -> bool -> soup -> string
    (* soup.get_text(separator=..., strip=...) *)
}.

Definition nl : string := String (ascii_of_nat 10) EmptyString.

Definition headers : list (string * string) :=
  [("User-Agent", "Mozilla/5.0 (Windows NT 10.0; Win64; x64) AppleWebKit/537.36 (KHTML, like Gecko) Chrome/120.0.0.0 Safari/537.36");
   ("Accept", "text/html,application/xhtml+xml,application/xml;q=0.9,image/avif,image/webp,*/*;q=0.8");
   ("Accept-Language", "en-US,en;q=0.5");
   ("Referer", "https://www.google.com/")].

Definition MODEL : string := "gemini-3-flash-preview".

(** Line 107. *)
Definition blocked_message (code : Z) : string :=
  "Site blocked the crawler (Status Code: " +:+ str_of_int code +:+ ").".

Definition timeout_message : string :=
  "Error: Connection timed out (Site is slow).".

Definition refused_message : string :=
  "Error: Connection refused (Bot protection).".

(** ['NoneType' object has no attribute 'strip'], raised by
    [response.text.strip()] when the model gave no text. *)
Definition none_strip_error : exn :=
  Exn false false "'NoneType' object has no attribute 'strip'".

Section diagnoser.
Context {soup tag : Type} `{!BeautifulSoup soup tag}.

(** Line 113: [soup.title.string.strip() if soup.title and
    soup.title.string else url].  A tag is always truthy, a string is
    truthy when it is not empty. *)
Definition page_title (url : string) (sp : soup) : string :=
  match soup_title sp with
  | None => url
  | Some t =>
      match tag_string t with
      | None | Some EmptyString => url
      | Some s => strip s
      end
  end.

(** Lines 116-119: the text snippet, after the script and style
    elements are taken out. *)
Definition page_text (sp : soup) : string :=
  str_take 1500 (get_text " " true (extract_all ["script"; "style"] sp)).

(** Lines 121-131. *)
Definition build_prompt (url title snippet : string) : string :=
  let content := "Title: " +:+ title +:+ nl +:+ "Page Text Snippet: " +:+ snippet in
  "Analyze this web page for SEO indexing issues." +:+ nl +:+
  "URL: " +:+ url +:+ nl +:+
  "Content Extracted:" +:+ nl +:+ content +:+ nl +:+ nl +:+
  "Task: The page is NOT indexed by Google. Based on the content above, " +:+
  "give 1 likely technical or content reason (e.g., 'Thin content', 'Under construction', 'Login wall', 'Technical error')." +:+
  "Keep it under 15 words.".

(** The prompt for a page whose body is [html]. *)
Definition diagnosis_prompt (url html : string) : string :=
  let sp := html_parser html in
  build_prompt url (page_title url sp) (page_text sp).

(** Lines 102-134: the body of the [try] statement. *)
Definition diagnosis_try (get : fetcher) (gemini_client : llm)
    (url : string) : result string :=
  res ← get url headers 15;
  if bool_decide (status_code res ≠ 200%Z) then
    Ok (blocked_message (status_code res))
  else
    match parser_rejects (text res) with
    | Some msg => Raise (Exn false false msg)       (* line 110 raises *)
    | None =>
        response_text ← gemini_client MODEL (diagnosis_prompt url (text res));
        match response_text with
        | None => Raise none_strip_error
        | Some t => Ok (strip t)
        end
    end.

(** Lines 136-141: the [except] clauses, in their order. *)
Definition handle (e : exn) : string :=
  if is_timeout e then timeout_message
  else if is_connection_error e then refused_message
  else "Error: " +:+ message e.

Definition get_ai_diagnosis (get : fetcher) (gemini_client : llm)
    (url : string) : string :=
  match diagnosis_try get gemini_client url with
  | Ok s => s
  | Raise e => handle e
  end.

(** Lines 133-141: what the function returns once the model was called
    and gave the answer [r]. *)
Definition model_outcome (r : result (option string)) : string :=
  match r with
  | Ok (Some t) => strip t
  | Ok None => handle none_strip_error
  | Raise e => handle e
  end.
End diagnoser.

(** ** A document tree, as an instance of the library interface

    Used to run [get_ai_diagnosis] on concrete pages.  The parser, and
    the markup it rejects, are parameters of the instance. *)

#[warnings="-register-all"]
Inductive node :=
  | Text (s : string)
  | Element (name : string) (children : list node).

(** [find(name)]: the first element called [name], in document order. *)
Fixpoint find_tag (name : string) (n : node) : option node :=
  match n with
  | Text _ => None
  | Element nm children =>
      if String.eqb nm name then Some n
      else
        (fix first (cs : list node) : option node :=
           match cs with
           | [] => None
           | c :: cs' =>
               match find_tag name c with
               | Some t => Some t
               | None => first cs'
               end
           end) children
  end.

Definition find_first (name : string) (doc : list node) : option node :=
  list_find (λ o, is_Some o) (find_tag name <$> doc) ≫= snd.

(** [.string]: the single string below a node, if there is exactly one
    chain of only children down to it. *)
Fixpoint node_string (n : node) : option string :=
  match n with
  | Text s => Some s
  | Element _ [c] => node_string c
  | Element _ _ => None
  end.

(** Take out every element whose name is in [names]. *)
Fixpoint remove_tags (names : list string) (n : node) : list node :=
  match n with
  | Text s => [Text s]
  | Element nm children =>
      if bool_decide (nm ∈ names) then []
      else [Element nm (flat_map (remove_tags names) children)]
  end.

(** The elements whose strings [get_text] leaves out (bs4 4.11 and
    later give them string classes of their own). *)
Definition hidden_containers : list string :=
  ["script"; "style"; "template"; "rt"; "rp"].

(** The strings of a node that [get_text] returns, in document order. *)
Fixpoint node_strings (n : node) : list string :=
  match n with
  | Text s => [s]
  | Element name children =>
      if bool_decide (name ∈ hidden_containers) then []
      else flat_map node_strings children
  end.

(** [tag.get_text()]: the text of an element. *)
Definition node_text (n : node) : string :=
  String.concat EmptyString (node_strings n).

(** [sep.join(l)] *)
Fixpoint str_join (sep : string) (l : list string) : string :=
  match l with
  | [] => EmptyString
  | [s] => s
  | s :: rest => s +:+ sep +:+ str_join sep rest
  end.

Definition nonempty (s : string) : bool :=
  match s with EmptyString => false | _ => true end.

Definition tree_get_text (sep : string) (strip_flag : bool) (doc : list node) : string :=
  let strings := flat_map node_strings doc in
  str_join sep (if strip_flag then filter nonempty (strip <$> strings) else strings).

Definition tree_soup (rejects : string -> option string)
    (parser : string -> list node) : BeautifulSoup (list node) node :=
  {| parser_rejects := rejects;
     html_parser := parser;
     soup_title := find_first "title";
     tag_string := node_string;
     extract_all := λ names, flat_map (remove_tags names);
     get_text := tree_get_text |}.

(** The URL as it is compared: [url.strip().rstrip('/')]. *)
Definition norm_url (url : string) : string := rstrip_slash (strip url).

(** The state an [outcome] carries. *)
Definition outcome_state (o : outcome) : state :=
  match o with
  | Completed st | Continued st | Raised st => st
  end.

(** Reading the result-sets raises: the loop over [enumerate(results)]
    reaches, from index [j], a result-set for which [is_found] raises. *)
Fixpoint results_raise (batch_urls : list string) (j : nat)
    (results : list json) : bool :=
  match results with
  | [] => false
  | res :: rest =>
      match batch_urls !! j with
      | None => false
      | Some url =>
          match is_found url res with
          | None => true
          | Some _ => results_raise batch_urls (S j) rest
          end
      end
  end.

(** Reading the parsed body raises: it cannot be iterated, or reading
    its result-sets raises. *)
Definition reading_raises (batch_urls : list string) (body : json) : bool :=
  match py_iter body with
  | None => true
  | Some results => results_raise batch_urls 0 results
  end.

(** A backend call that fails, for the batch it was made for:
    [requests.post] raises, the status code is not 200,
    [response.json()] raises, or reading the parsed body raises. *)
Inductive failed_response (batch_urls : list string) : response -> Prop :=
  | failed_transport :
      failed_response batch_urls PostRaises
  | failed_status code body :
      code ≠ 200%Z -> failed_response batch_urls (Response code body)
  | failed_parse code :
      failed_response batch_urls (Response code None)
  | failed_read code body :
      reading_raises batch_urls body = true ->
      failed_response batch_urls (Response code (Some body)).

(** A response that takes the [continue] of line 51. *)
Definition status_failure (r : response) : bool :=
  match r with
  | Response code _ => bool_decide (code ≠ 200%Z)
  | PostRaises => false
  end.

(** The backend's answers to the calls of a run, one per batch. *)
Definition responses (be : backend) (urls : list string) (api_key : string)
    : list response :=
  imap (λ k batch, be k api_key (make_payload batch)) (batches urls).

(** An answer that, when it has status 200 and a body that can be
    iterated, has at least one result-set for each query. *)
Definition complete_response (batch : list string) (r : response) : Prop :=
  ∀ body results,
    r = Response 200 (Some body) → py_iter body = Some results →
    length batch ≤ length results.

(** Two outcomes of the same kind whose mappings agree on [u]. *)
Definition outcome_agree (u : string) (o1 o2 : outcome) : Prop :=
  match o1, o2 with
  | Completed st1, Completed st2
  | Continued st1, Continued st2
  | Raised st1, Raised st2 => indexed_map st1 !! u = indexed_map st2 !! u
  | _, _ => False
  end.

(** ** Concrete backends, for the examples *)

(** A result-set whose organic results have the given links. *)
Definition organic (links : list string) : json :=
  JObj [("organic", JArr ((λ link, JObj [("link", JStr link)]) <$> links))].

(** Every call is answered with status 429. *)
Definition rate_limited : backend := λ _ _ _, Response 429 None.

(** Every call raises. *)
Definition unreachable : backend := λ _ _ _, PostRaises.

(** Every call is answered with status 200 and a single result-set. *)
Definition one_result_set : backend :=
  λ _ _ _, Response 200 (Some (JArr [organic ["https://a.com/x"]])).

(** Every call is answered with status 200 and a single result-set,
    whose only link ends with a space. *)
Definition spaced_link : backend :=
  λ _ _ _, Response 200 (Some (JArr [organic ["https://a.com/x "]])).

(** The matching rule in which the link, too, is trimmed before its
    trailing slashes are removed. *)
Definition trimmed_link_match (url : string) (items : list json) : Prop :=
  ∃ item link,
    item ∈ items ∧ item_get_link item = Some link
    ∧ str_in (norm_url url) (rstrip_slash (strip link)) = true.

(** The matching rule of the code: only the trailing slashes of the
    link are removed. *)
Definition link_match (url : string) (items : list json) : Prop :=
  ∃ item link,
    item ∈ items ∧ item_get_link item = Some link
    ∧ str_in (norm_url url) (rstrip_slash link) = true.

(** ** A concrete page, fetchers and models, for the examples *)

Definition sample_page : list node :=
  [Element "html"
     [Element "head"
        [Element "title" [Text "  Coming soon "];
         Element "script" [Text "var x = 1;"]];
      Element "body"
        [Text " Hello ";
         Element "style" [Text "p { color: red }"];
         Element "p" [Text "world  "; Text "   "]]]].

(** A page without a title element. *)
Definition untitled_page : list node :=
  [Element "html" [Element "body" [Text "Hello"]]].

(** A page whose title is made of blanks. *)
Definition blank_title_page : list node :=
  [Element "html" [Element "head" [Element "title" [Text "   "]]]].

(** The page [<title>My <b>Shop</b></title>]: the title element has two
    children. *)
Definition nested_title_page : list node :=
  [Element "title" [Text "My "; Element "b" [Text "Shop"]]].

(** The pages of the examples, by the body of the response; the body
    ["rejected"] stands for markup that the parser rejects. *)
#[global] Instance sample_soup : BeautifulSoup (list node) node :=
  tree_soup
    (λ html,
       if String.eqb html "rejected" then Some "parser rejected the markup"
       else None)
    (λ html,
       if String.eqb html "untitled" then untitled_page
       else if String.eqb html "blank" then blank_title_page
       else if String.eqb html "<title>My <b>Shop</b></title>" then nested_title_page
       else sample_page).

(** Every fetch returns the given status code and body. *)
Definition fetch_status (code : Z) (body : string) : fetcher :=
  λ _ _ _, Ok (Page code body).

(** Every fetch raises the given exception. *)
Definition fetch_raises (e : exn) : fetcher := λ _ _ _, Raise e.

(** The model always answers with the given text. *)
Definition model_says (t : string) : llm := λ _ _, Ok (Some t).

(** ** The audit script (lines 143-198)

    The script reads the URLs from a text area and, when the button is
    pressed, checks them in bulk and diagnoses those that are not
    indexed.  The widgets of the page (messages, progress bar, table,
    downloads) are left out; the progress value is computed in floating
    point and is left out too. *)

Definition newline : ascii := ascii_of_nat 10.

(** [s.split('\n')]: the pieces between the newlines; never empty. *)
Fixpoint split_lines (s : string) : list string :=
  match s with
  | EmptyString => [EmptyString]
  | String c s' =>
      if Ascii.eqb c newline then EmptyString :: split_lines s'
      else
        match split_lines s' with
        | piece :: rest => String c piece :: rest
        | [] => [String c EmptyString]
        end
  end.

(** Line 144: [[u.strip() for u in url_input.split('\n') if u.strip()]] *)
Definition parse_urls (url_input : string) : list string :=
  strip <$> filter (λ u, nonempty (strip u)) (split_lines url_input).

(** The characters of a string. *)
Definition chars (s : string) : list ascii := list_ascii_of_string s.
Arguments chars : simpl never.

(** A URL as the text area gives it: not empty, trimmed, on one line. *)
Definition clean_url (u : string) : Prop :=
  u ≠ EmptyString ∧ strip u = u ∧ newline ∉ chars u.

(** One row of [final_data]. *)
Record row := Row {
  URL : string;
  Indexed : string;
  AI_Diagnosis : string
}.

(** The two labels of the column [Indexed], as their UTF-8 bytes; they
    are only compared with one another. *)
Definition YES : string := "✅ Yes".
Definition NO : string := "❌ No".
Definition NOT_APPLICABLE : string := "N/A (Indexed)".

(** The calls the loop of step B makes to the outside. *)
Inductive audit_event :=
  | Diagnose (url : string)       (* get_ai_diagnosis(url, client) *)
  | Pause (seconds : nat).        (* time.sleep(seconds) *)

Record audit_state := AuditState {
  final_data : list row;
  audit_trace : list audit_event
}.

Definition is_pause (e : audit_event) : bool :=
  match e with Pause _ => true | Diagnose _ => false end.

(** The calls that an iteration makes for a URL with the verdict
    [is_indexed]. *)
Definition audit_events (is_indexed : bool) (url : string) : list audit_event :=
  if is_indexed then [] else [Diagnose url; Pause 2].

(** [index_results.get(url, False)] *)
Definition get_verdict (index_results : gmap string bool) (url : string) : bool :=
  default false (index_results !! url).

(** [diag if diag else "N/A (Indexed)"]: [None] and the empty string
    are falsy. *)
Definition diagnosis_cell (diag : option string) : string :=
  match diag with
  | Some (String c s) => String c s
  | Some EmptyString | None => NOT_APPLICABLE
  end.

Section audit.
Context {soup tag : Type} `{!BeautifulSoup soup tag}.

(** Lines 169-182: one iteration of the loop of step B.  [fetch i] and
    [client i] are the page fetch and the model as the [i]-th iteration
    finds them. *)
Definition audit_body (index_results : gmap string bool)
    (fetch : nat -> fetcher) (client : nat -> llm)
    (st : audit_state) (i : nat) (url : string) : audit_state :=
  let is_indexed := get_verdict index_results url in
  let diag :=
    if is_indexed then None
    else Some (get_ai_diagnosis (fetch i) (client i) url) in
  let events := if is_indexed then [] else [Diagnose url; Pause 2] in
  AuditState
    (final_data st ++
       [Row url (if is_indexed then YES else NO) (diagnosis_cell diag)])
    (audit_trace st ++ events).

(** Lines 168-186: [for i, url in enumerate(urls)], from index [i]. *)
Fixpoint audit_loop (index_results : gmap string bool)
    (fetch : nat -> fetcher) (client : nat -> llm)
    (i : nat) (urls : list string) (st : audit_state) : audit_state :=
  match urls with
  | [] => st
  | url :: rest =>
      audit_loop index_results fetch client (S i) rest
        (audit_body index_results fetch client st i url)
  end.

(** The row that the [i]-th iteration appends for [url]. *)
Definition audit_row (index_results : gmap string bool)
    (fetch : nat -> fetcher) (client : nat -> llm) (i : nat) (url : string) : row :=
  if get_verdict index_results url then Row url YES NOT_APPLICABLE
  else Row url NO (diagnosis_cell (Some (get_ai_diagnosis (fetch i) (client i) url))).

(** What pressing the button does. *)
Inductive click_result :=
  | KeysMissing                     (* st.error(...) *)
  | NoUrls                          (* st.warning(...) *)
  | Audited (bulk : state) (audit : audit_state)
            (indexed_count not_indexed : Z).

(** Lines 146-198: the body of [if st.button(...)].  [make_client key]
    is [genai.Client(api_key=key)]. *)
Definition start_bulk_audit (be : backend) (fetch : nat -> fetcher)
    (make_client : string -> nat -> llm)
    (serper_key gemini_key url_input : string) : click_result :=
  let urls := parse_urls url_input in
  if negb (nonempty serper_key) || negb (nonempty gemini_key) then KeysMissing
  else
    match urls with
    | [] => NoUrls
    | _ :: _ =>
        let client := make_client gemini_key in
        let bulk := check_index_bulk_run be urls serper_key in
        let index_results := indexed_map bulk in
        let audit :=
          audit_loop index_results fetch client 0 urls (AuditState [] []) in
        let total := Z.of_nat (length urls) in
        let indexed_count :=
          Z.of_nat (length (filter (λ r, Indexed r = YES) (final_data audit))) in
        Audited bulk audit indexed_count (total - indexed_count)%Z
    end.
End audit.

(** The [k]-th answer of the backend has status 200 and, at a position
    of [u] in the batch, a result-set with a link that matches [u]. *)
Definition batch_finds (be : backend) (urls : list string) (api_key : string)
    (k : nat) (u : string) : Prop :=
  ∃ batch body results j res items,
    batches urls !! k = Some batch
    ∧ be k api_key (make_payload batch) = Response 200 (Some body)
    ∧ py_iter body = Some results
    ∧ batch !! j = Some u
    ∧ results !! j = Some res
    ∧ organic_items res = Some items
    ∧ link_match u items.

(** * Properties *)

(** ** Strings *)

Section strings.
Implicit Types (s t u : string) (p : ascii -> bool).

Lemma append_nil_l s : EmptyString +:+ s = s.
Proof. reflexivity. Qed.

Lemma append_cons c s t : String c s +:+ t = String c (s +:+ t).
Proof. reflexivity. Qed.

Lemma append_empty_r s : s +:+ EmptyString = s.
Proof.
  induction s as [|c s IH]; [done |]. by rewrite append_cons, IH.
Qed.

Lemma append_assoc s t u : (s +:+ t) +:+ u = s +:+ t +:+ u.
Proof.
  induction s as [|c s IH]; [done |]. by rewrite !append_cons, IH.
Qed.

Lemma length_append s t :
  String.length (s +:+ t) = String.length s + String.length t.
Proof.
  induction s as [|c s IH]; [done |]. rewrite append_cons. simpl. by rewrite IH.
Qed.

Lemma startswith_spec u s : startswith u s = true ↔ ∃ t, s = u +:+ t.
Proof.
  revert s. induction u as [|a u IH]; intros s; simpl.
  - split; [intros _; by exists s | done].
  - destruct s as [|b s].
    + split; [done | intros [t Ht]; discriminate].
    + rewrite andb_true_iff, IH, Ascii.eqb_eq. split.
      * intros [-> [t ->]]. by exists t.
      * intros [t Ht]. rewrite append_cons in Ht. injection Ht as -> ->. eauto.
Qed.

(** [u in s] holds exactly when [s] is [u] with something before and
    something after it. *)
Lemma str_in_spec u s :
  str_in u s = true ↔ ∃ pre post, s = pre +:+ u +:+ post.
Proof.
  induction s as [|c s IH]; simpl.
  - rewrite orb_false_r, startswith_spec. split.
    + intros [t Ht]. by exists EmptyString, t.
    + intros [[|??] [post Hs]]; [by exists post | discriminate].
  - rewrite orb_true_iff, startswith_spec, IH. split.
    + intros [[t Ht] | (pre & post & ->)].
      * by exists EmptyString, t.
      * by exists (String c pre), post.
    + intros [[|a pre] [post Hs]].
      * left. by exists post.
      * right. rewrite append_cons in Hs. injection Hs as -> ->.
        by exists pre, post.
Qed.

Lemma str_in_empty s : str_in EmptyString s = true.
Proof. apply str_in_spec. by exists EmptyString, s. Qed.

Lemma rstrip_chars_app p s t :
  rstrip_chars p (s +:+ t) =
    match rstrip_chars p t with
    | EmptyString => rstrip_chars p s
    | r => s +:+ r
    end.
Proof.
  induction s as [|c s IH].
  - rewrite append_nil_l. by destruct (rstrip_chars p t).
  - rewrite append_cons. simpl. rewrite IH.
    destruct (rstrip_chars p t) as [|d r]; [done |].
    rewrite append_cons. by destruct s.
Qed.

Lemma rstrip_chars_idemp p s :
  rstrip_chars p (rstrip_chars p s) = rstrip_chars p s.
Proof.
  induction s as [|c s IH]; simpl; [done |].
  destruct (rstrip_chars p s) as [|d r] eqn:Hr.
  - destruct (p c) eqn:Hc; simpl; [done | by rewrite Hc].
  - simpl in *. by rewrite IH.
Qed.

Lemma length_str_take n s : String.length (str_take n s) ≤ n.
Proof.
  revert s. induction n as [|n IH]; intros [|c s]; simpl; try lia.
  specialize (IH s). lia.
Qed.

Lemma str_take_short n s : String.length s ≤ n → str_take n s = s.
Proof.
  revert s. induction n as [|n IH]; intros [|c s]; simpl; try done; try lia.
  intros ?. rewrite IH; [done | lia].
Qed.

(** A link that has the compared URL anywhere inside it still has it
    after [rstrip('/')]. *)
Lemma norm_url_in_rstrip_slash url pre post :
  str_in (norm_url url) (rstrip_slash (pre +:+ norm_url url +:+ post)) = true.
Proof.
  unfold rstrip_slash. rewrite !rstrip_chars_app.
  assert (Hn : rstrip_chars is_slash (norm_url url) = norm_url url)
    by apply rstrip_chars_idemp.
  destruct (rstrip_chars is_slash post) as [|c r] eqn:Hpost.
  - rewrite Hn. destruct (norm_url url) as [|a n] eqn:Hu.
    + apply str_in_empty.
    + apply str_in_spec. exists pre, EmptyString. by rewrite append_empty_r.
  - destruct (norm_url url +:+ String c r) eqn:Happ.
    + destruct (norm_url url); [apply str_in_empty | discriminate].
    + rewrite <- Happ. apply str_in_spec. by exists pre, (String c r).
Qed.
End strings.

(** ** Batches *)

Section batches.
Context {A : Type}.
Implicit Types (l : list A) (k n : nat).

Lemma length_py_range stop :
  length (py_range 0 stop BATCH_SIZE) = (stop + 19) / 20.
Proof.
  unfold py_range, BATCH_SIZE. rewrite length_fmap, length_seq.
  by rewrite Nat.sub_0_r.
Qed.

Lemma py_range_lookup stop k :
  k < (stop + 19) / 20 → py_range 0 stop BATCH_SIZE !! k = Some (k * 20).
Proof.
  intros Hk. unfold py_range, BATCH_SIZE. rewrite list_lookup_fmap.
  rewrite Nat.sub_0_r. change (20 - 1) with 19.
  by rewrite lookup_seq_lt.
Qed.

Lemma py_range_offsets stop :
  py_range 0 stop BATCH_SIZE = (λ k, k * 20) <$> seq 0 ((stop + 19) / 20).
Proof. unfold py_range, BATCH_SIZE. by rewrite Nat.sub_0_r. Qed.

Lemma py_slice_batch l k :
  py_slice l (k * 20) (k * 20 + BATCH_SIZE) = take 20 (drop (k * 20) l).
Proof.
  unfold py_slice, BATCH_SIZE. f_equal. lia.
Qed.

Lemma concat_slices l m :
  concat ((λ k, take 20 (drop (k * 20) l)) <$> seq 0 m) = take (m * 20) l.
Proof.
  induction m as [|m IH]; [done |].
  rewrite seq_S, fmap_app, concat_app, IH. simpl.
  rewrite app_nil_r, take_take_drop. f_equal. lia.
Qed.

Lemma div_up_bounds n : n ≤ (n + 19) / 20 * 20 < n + 20.
Proof.
  pose proof (Nat.div_mod_eq (n + 19) 20) as Hd.
  pose proof (Nat.mod_upper_bound (n + 19) 20). lia.
Qed.

Lemma lt_div_up k n : k < (n + 19) / 20 ↔ k * 20 < n.
Proof.
  pose proof (div_up_bounds n). split; [nia |].
  intros Hk. apply Nat.div_le_lower_bound; lia.
Qed.
End batches.

(** ** The state and the trace *)

Section state.
Implicit Types (st : state) (u url : string) (batch : list string).

Lemma trace_mark_false batch st : trace (mark_false batch st) = trace st.
Proof.
  revert st. induction batch as [|v batch IH]; intros st; [done |].
  simpl. by rewrite IH.
Qed.

Lemma lookup_mark_false batch st u :
  indexed_map (mark_false batch st) !! u =
    if decide (u ∈ batch) then Some false else indexed_map st !! u.
Proof.
  revert st. induction batch as [|v batch IH]; intros st.
  - rewrite decide_False; [done | inversion 1].
  - simpl. rewrite IH. simpl.
    destruct (decide (u ∈ batch)) as [Hin|Hin].
    + rewrite decide_True; [done | by right].
    + destruct (decide (u = v)) as [->|Hne].
      * rewrite decide_True; [by rewrite lookup_insert_eq | by left].
      * rewrite decide_False, lookup_insert_ne; [done.. |].
        by intros [?|?]%elem_of_cons.
Qed.

Lemma dom_mark_false batch st :
  dom (indexed_map (mark_false batch st)) = list_to_set batch ∪ dom (indexed_map st).
Proof.
  apply set_eq. intros u.
  rewrite elem_of_dom, lookup_mark_false, elem_of_union, elem_of_list_to_set, elem_of_dom.
  destruct (decide (u ∈ batch)) as [Hin|Hin].
  - split; [by left | by eexists].
  - split; [by right | by intros [?|?]].
Qed.

Lemma map_results_trace batch j results st :
  trace (outcome_state (map_results batch j results st)) = trace st.
Proof.
  revert j st. induction results as [|res rest IH]; intros j st; simpl; [done |].
  destruct (batch !! j) as [url|]; [| done].
  destruct (is_found url res) as [found|]; [| done].
  by rewrite IH.
Qed.

Lemma map_results_not_continued batch j results st st' :
  map_results batch j results st ≠ Continued st'.
Proof.
  revert j st. induction results as [|res rest IH]; intros j st; simpl; [done |].
  destruct (batch !! j) as [url|]; [| done].
  destruct (is_found url res) as [found|]; [apply IH | done].
Qed.

(** The loop over the results leaves alone every URL that is not at
    one of the positions it visits. *)
Lemma map_results_lookup_skip batch j results st u :
  (∀ j', j ≤ j' → j' < j + length results → batch !! j' ≠ Some u) →
  indexed_map (outcome_state (map_results batch j results st)) !! u =
    indexed_map st !! u.
Proof.
  revert j st. induction results as [|res rest IH]; intros j st Hskip; simpl; [done |].
  destruct (batch !! j) as [url|] eqn:Hj; [| done].
  destruct (is_found url res) as [found|]; [| done].
  rewrite IH.
  - simpl. apply lookup_insert_ne. intros ->.
    apply (Hskip j); [lia | simpl; lia | done].
  - intros j' ? ?. apply Hskip; simpl in *; lia.
Qed.

Lemma map_results_lookup_other batch j results st u :
  u ∉ batch →
  indexed_map (outcome_state (map_results batch j results st)) !! u =
    indexed_map st !! u.
Proof.
  intros Hu. apply map_results_lookup_skip. intros j' _ _ Hj'.
  apply Hu. by eapply list_elem_of_lookup_2.
Qed.

(** The loop over the results writes the verdict of [is_found] at each
    position it visits. *)
Lemma map_results_completed batch j0 results st st' j url res :
  map_results batch j0 results st = Completed st' →
  batch !! (j0 + j) = Some url →
  results !! j = Some res →
  (∀ j', j < j' → j' < length results → batch !! (j0 + j') ≠ Some url) →
  ∃ found, is_found url res = Some found ∧ indexed_map st' !! url = Some found.
Proof.
  revert j0 st j. induction results as [|res0 rest IH]; intros j0 st j Hrun Hb Hr Hlast;
    [done |].
  simpl in Hrun.
  destruct (batch !! j0) as [url0|] eqn:Hj0.
  2:{ apply lookup_ge_None in Hj0. apply lookup_lt_Some in Hb. lia. }
  destruct (is_found url0 res0) as [found|] eqn:Hfound; [| done].
  destruct j as [|j].
  - rewrite Nat.add_0_r, Hj0 in Hb. injection Hb as ->. injection Hr as ->.
    exists found. split; [done |].
    pose proof (map_results_lookup_skip batch (S j0) rest
                  (set_verdict url found st) url) as Hskip.
    rewrite Hrun in Hskip. simpl in Hskip. rewrite Hskip.
    + apply lookup_insert_eq.
    + intros j' ? ?. replace j' with (j0 + (j' - j0)) by lia.
      apply Hlast; simpl; lia.
  - simpl in Hr. eapply (IH (S j0) _ j); [done | | done |].
    + by replace (S j0 + j) with (j0 + S j) by lia.
    + intros j' ? ?. replace (S j0 + j') with (j0 + S j') by lia.
      apply Hlast; simpl; lia.
Qed.

Lemma map_results_raised batch j results st :
  results_raise batch j results = true →
  ∃ st', map_results batch j results st = Raised st'.
Proof.
  revert j st. induction results as [|res rest IH]; intros j st; simpl; [done |].
  destruct (batch !! j) as [url|]; [| done].
  destruct (is_found url res) as [found|]; [apply IH | by eexists].
Qed.

Lemma map_results_dom_mono batch j results st :
  dom (indexed_map st) ⊆ dom (indexed_map (outcome_state (map_results batch j results st))).
Proof.
  revert j st. induction results as [|res rest IH]; intros j st; simpl; [done |].
  destruct (batch !! j) as [url|]; [| done].
  destruct (is_found url res) as [found|]; [| done].
  etrans; [| apply IH]. simpl. rewrite dom_insert_L. set_solver.
Qed.

Lemma map_results_dom_batch batch j results st :
  dom (indexed_map (outcome_state (map_results batch j results st)))
    ⊆ list_to_set batch ∪ dom (indexed_map st).
Proof.
  intros u Hu. destruct (decide (u ∈ batch)) as [Hin|Hin]; [set_solver |].
  apply elem_of_union_r, elem_of_dom. apply elem_of_dom in Hu.
  by rewrite map_results_lookup_other in Hu.
Qed.

(** A loop over the results that ends normally has given a verdict to
    the first [length results] URLs it was to visit. *)
Lemma map_results_dom_completed batch j results st st' :
  map_results batch j results st = Completed st' →
  dom (indexed_map st') =
    list_to_set (take (length results) (drop j batch)) ∪ dom (indexed_map st).
Proof.
  revert j st. induction results as [|res rest IH]; intros j st Hrun; simpl in *.
  - injection Hrun as <-. set_solver.
  - destruct (batch !! j) as [url|] eqn:Hj.
    + destruct (is_found url res) as [found|]; [| done].
      rewrite (IH _ _ Hrun), (drop_S _ _ _ Hj). simpl.
      rewrite dom_insert_L. set_solver.
    + injection Hrun as <-. apply lookup_ge_None in Hj.
      rewrite drop_ge by done. set_solver.
Qed.

Lemma map_results_agree u batch j results st1 st2 :
  indexed_map st1 !! u = indexed_map st2 !! u →
  outcome_agree u (map_results batch j results st1)
                  (map_results batch j results st2).
Proof.
  revert j st1 st2. induction results as [|res rest IH]; intros j st1 st2 Hagree;
    simpl; [done |].
  destruct (batch !! j) as [url|]; [| done].
  destruct (is_found url res) as [found|]; [| done].
  apply IH. simpl. destruct (decide (url = u)) as [->|Hne].
  - by rewrite !lookup_insert_eq.
  - by rewrite !lookup_insert_ne.
Qed.
End state.

(** ** One iteration, and the loop *)

Section loop.
Variables (be : backend) (urls : list string) (api_key : string).
Implicit Types (st : state) (i k n : nat) (u : string).

Let batch_at i := py_slice urls i (i + BATCH_SIZE).
Let step := loop_body be urls api_key.
Let request i := Post api_key (make_payload (batch_at i)).
Let answer st i :=
  be (length (posts (trace st))) api_key (make_payload (batch_at i)).

Lemma posts_snoc tr e :
  posts (tr ++ [e]) = posts tr ++ (if is_post e then [e] else []).
Proof. unfold posts. rewrite filter_app. by destruct e. Qed.

Lemma sleeps_snoc tr e :
  sleeps (tr ++ [e]) = sleeps tr ++ (if is_sleep e then [e] else []).
Proof. unfold sleeps. rewrite filter_app. by destruct e. Qed.

(** The events one iteration adds to the trace. *)
Lemma loop_body_trace st i :
  trace (step st i) =
    trace st ++ request i
      :: match answer st i with
         | PostRaises => [Print; Sleep 1]
         | Response code body =>
             if bool_decide (code ≠ 200%Z) then [Print]
             else match body ≫= py_iter with
                  | None => [Print; Sleep 1]
                  | Some results =>
                      match map_results (batch_at i) 0 results
                              (emit (request i) st) with
                      | Completed _ => [Sleep 1]
                      | _ => [Print; Sleep 1]
                      end
                  end
         end.
Proof.
  unfold step, loop_body, try_body. fold (batch_at i) (answer st i) (request i).
  destruct (answer st i) as [|code body]; simpl.
  - rewrite trace_mark_false. simpl. by rewrite <- !app_assoc.
  - case_bool_decide; simpl.
    + rewrite trace_mark_false. simpl. by rewrite <- !app_assoc.
    + destruct (body ≫= py_iter) as [results|]; simpl.
      * pose proof (map_results_trace (batch_at i) 0 results
                      (emit (request i) st)) as Htr.
        destruct (map_results _ _ _ _) as [st'|st'|st'] eqn:Hrun; simpl in *.
        -- rewrite Htr. by rewrite <- !app_assoc.
        -- by apply map_results_not_continued in Hrun.
        -- rewrite trace_mark_false. simpl. rewrite Htr.
           by rewrite <- !app_assoc.
      * rewrite trace_mark_false. simpl. by rewrite <- !app_assoc.
Qed.

Lemma posts_loop_body st i :
  posts (trace (step st i)) = posts (trace st) ++ [request i].
Proof.
  rewrite loop_body_trace. unfold posts. rewrite filter_app, filter_cons.
  simpl. do 2 f_equal.
  destruct (answer st i) as [|code body]; [done |].
  case_bool_decide; [done |].
  destruct (body ≫= py_iter) as [results|]; [| done].
  by destruct (map_results _ _ _ _).
Qed.

(** An iteration pauses, except when it leaves through the [continue]
    of the status check. *)
Lemma sleeps_loop_body st i :
  sleeps (trace (step st i)) =
    sleeps (trace st) ++ (if status_failure (answer st i) then [] else [Sleep 1]).
Proof.
  rewrite loop_body_trace. unfold sleeps. rewrite filter_app, filter_cons.
  simpl. f_equal.
  destruct (answer st i) as [|code body]; [done |]. simpl.
  case_bool_decide; [done |].
  destruct (body ≫= py_iter) as [results|]; [| done].
  by destruct (map_results _ _ _ _).
Qed.

(** An iteration never touches the verdict of a URL outside its batch. *)
Lemma loop_body_lookup_other st i u :
  u ∉ batch_at i →
  indexed_map (step st i) !! u = indexed_map st !! u.
Proof.
  intros Hu. unfold step, loop_body, try_body.
  fold (batch_at i) (answer st i) (request i).
  destruct (answer st i) as [|code body]; simpl.
  - by rewrite lookup_mark_false, decide_False.
  - case_bool_decide; simpl.
    + by rewrite lookup_mark_false, decide_False.
    + destruct (body ≫= py_iter) as [results|]; simpl.
      * pose proof (map_results_lookup_other (batch_at i) 0 results
                      (emit (request i) st) u Hu) as Hlk.
        destruct (map_results _ _ _ _) as [st'|st'|st']; simpl in *; try done.
        by rewrite lookup_mark_false, decide_False.
      * by rewrite lookup_mark_false, decide_False.
Qed.

(** After a failed backend call every URL of the batch is [False]. *)
Lemma loop_body_failed st i u :
  failed_response (batch_at i) (answer st i) →
  u ∈ batch_at i →
  indexed_map (step st i) !! u = Some false.
Proof.
  intros Hfail Hu. unfold step, loop_body, try_body.
  fold (batch_at i) (answer st i) (request i).
  destruct Hfail as [|code body Hcode|code|code body Hread]; simpl.
  - by rewrite lookup_mark_false, decide_True.
  - rewrite bool_decide_true by done. simpl.
    by rewrite lookup_mark_false, decide_True.
  - case_bool_decide; simpl; by rewrite lookup_mark_false, decide_True.
  - case_bool_decide; simpl; [by rewrite lookup_mark_false, decide_True |].
    unfold reading_raises in Hread.
    destruct (py_iter body) as [results|]; simpl.
    + destruct (map_results_raised _ _ _ (emit (request i) st) Hread) as [st' ->].
      simpl. by rewrite lookup_mark_false, decide_True.
    + by rewrite lookup_mark_false, decide_True.
Qed.

(** With a complete answer, an iteration gives a verdict to exactly
    the URLs of its batch. *)
Lemma dom_loop_body st i :
  complete_response (batch_at i) (answer st i) →
  dom (indexed_map (step st i)) = list_to_set (batch_at i) ∪ dom (indexed_map st).
Proof.
  intros Hcomplete. unfold step, loop_body, try_body.
  fold (batch_at i) (answer st i) (request i).
  destruct (answer st i) as [|code body] eqn:Hanswer; simpl.
  - by rewrite dom_mark_false.
  - case_bool_decide as Hcode; simpl; [by rewrite dom_mark_false |].
    subst code.
    destruct body as [body|]; simpl; [| by rewrite dom_mark_false].
    destruct (py_iter body) as [results|] eqn:Hiter; simpl;
      [| by rewrite dom_mark_false].
    specialize (Hcomplete body results eq_refl Hiter).
    pose proof (map_results_dom_mono (batch_at i) 0 results (emit (request i) st)) as Hmono.
    pose proof (map_results_dom_batch (batch_at i) 0 results (emit (request i) st)) as Hbatch.
    destruct (map_results _ _ _ _) as [st'|st'|st'] eqn:Hrun; simpl in *.
    + rewrite (map_results_dom_completed _ _ _ _ _ Hrun). simpl.
      by rewrite drop_0, take_ge.
    + by apply map_results_not_continued in Hrun.
    + rewrite dom_mark_false. simpl. set_solver.
Qed.
End loop.

Section two_backends.
Variables (be1 be2 : backend) (urls : list string) (api_key : string).
Implicit Types (st : state) (i k n a : nat) (u : string).

(** Two iterations that get the same answer and start from mappings
    that agree on [u] end with mappings that agree on [u]. *)
Lemma loop_body_agree st1 st2 i u :
  (∀ payload, be1 (length (posts (trace st1))) api_key payload
              = be2 (length (posts (trace st2))) api_key payload) →
  indexed_map st1 !! u = indexed_map st2 !! u →
  indexed_map (loop_body be1 urls api_key st1 i) !! u
  = indexed_map (loop_body be2 urls api_key st2 i) !! u.
Proof.
  intros Hanswer Hagree. unfold loop_body, try_body. rewrite Hanswer.
  set (batch := py_slice urls i (i + BATCH_SIZE)).
  destruct (be2 _ _ _) as [|code body]; simpl.
  - rewrite !lookup_mark_false. by case_decide.
  - case_bool_decide; simpl.
    + rewrite !lookup_mark_false. by case_decide.
    + destruct (body ≫= py_iter) as [results|]; simpl.
      * pose proof (map_results_agree u batch 0 results
                      (emit (Post api_key (make_payload batch)) st1)
                      (emit (Post api_key (make_payload batch)) st2) Hagree) as Hrun.
        destruct (map_results _ _ _ (emit _ st1)), (map_results _ _ _ (emit _ st2));
          simpl in *; try done.
        rewrite !lookup_mark_false. by case_decide.
      * rewrite !lookup_mark_false. by case_decide.
Qed.

(** Backends that differ on the [k0]-th call only give the same
    verdict to every URL outside the [k0]-th batch. *)
Lemma run_from_agree k0 u n a st1 st2 :
  (∀ k key payload, k ≠ k0 → be1 k key payload = be2 k key payload) →
  u ∉ take 20 (drop (k0 * 20) urls) →
  length (posts (trace st1)) = a →
  length (posts (trace st2)) = a →
  indexed_map st1 !! u = indexed_map st2 !! u →
  indexed_map (foldl (loop_body be1 urls api_key) st1 ((λ k, k * 20) <$> seq a n)) !! u
  = indexed_map (foldl (loop_body be2 urls api_key) st2 ((λ k, k * 20) <$> seq a n)) !! u.
Proof.
  intros Hsame Hu. revert a st1 st2.
  induction n as [|n IH]; intros a st1 st2 Hlen1 Hlen2 Hagree; [done |].
  change (seq a (S n)) with (a :: seq (S a) n). rewrite fmap_cons. cbn [foldl].
  apply IH.
  - rewrite posts_loop_body, length_app. simpl. lia.
  - rewrite posts_loop_body, length_app. simpl. lia.
  - destruct (decide (a = k0)) as [->|Hne].
    + rewrite !loop_body_lookup_other; [done | by rewrite py_slice_batch..].
    + apply loop_body_agree; [| done]. intros payload.
      rewrite Hlen1, Hlen2. by apply Hsame.
Qed.
End two_backends.

(** ** The whole run *)

Section run.
Variables (be : backend) (urls : list string) (api_key : string).
Implicit Types (st : state) (k n a : nat) (u : string).

Let step := loop_body be urls api_key.
Let offsets a n := (λ k, k * 20) <$> seq a n.
Let batch k := take 20 (drop (k * 20) urls).
Let count := (length urls + 19) / 20.

Lemma batches_slices : batches urls = batch <$> seq 0 count.
Proof.
  unfold batches. rewrite py_range_offsets, <- list_fmap_compose.
  apply list_fmap_ext. intros _ k _. simpl. apply py_slice_batch.
Qed.

Lemma length_batches : length (batches urls) = count.
Proof. by rewrite batches_slices, length_fmap, length_seq. Qed.

Lemma batches_lookup k b :
  batches urls !! k = Some b ↔ k < count ∧ b = batch k.
Proof.
  rewrite batches_slices, list_lookup_fmap. split.
  - intros Hk. destruct (seq 0 count !! k) as [k'|] eqn:Hseq; [| done].
    apply lookup_seq in Hseq as [-> ?]. simpl in Hk. by injection Hk as <-.
  - intros [Hk ->]. by rewrite lookup_seq_lt.
Qed.

Lemma run_offsets :
  check_index_bulk_run be urls api_key = foldl step (State ∅ []) (offsets 0 count).
Proof. unfold check_index_bulk_run. by rewrite py_range_offsets. Qed.

(** Induction over the iterations of the loop: the [k]-th iteration
    starts when [k] requests were issued. *)
Lemma run_from_ind (P : nat → state → Prop) n a st :
  (∀ k st', length (posts (trace st')) = k → a ≤ k < a + n →
            P k st' → P (S k) (step st' (k * 20))) →
  length (posts (trace st)) = a →
  P a st →
  P (a + n) (foldl step st (offsets a n))
  ∧ length (posts (trace (foldl step st (offsets a n)))) = a + n.
Proof.
  revert a st. induction n as [|n IH]; intros a st Hstep Hlen HP.
  - rewrite Nat.add_0_r. by simpl.
  - simpl. replace (a + S n) with (S a + n) by lia. apply IH.
    + intros k st' ? ? ?. apply Hstep; [done | lia | done].
    + unfold step. rewrite posts_loop_body, length_app. simpl. lia.
    + apply Hstep; [done | lia | done].
Qed.

Lemma posts_run_from n a st :
  posts (trace (foldl step st (offsets a n))) =
    posts (trace st) ++ ((λ k, Post api_key (make_payload (batch k))) <$> seq a n).
Proof.
  revert a st. induction n as [|n IH]; intros a st.
  - simpl. by rewrite app_nil_r.
  - change (offsets a (S n)) with (a * 20 :: offsets (S a) n).
    change (seq a (S n)) with (a :: seq (S a) n).
    rewrite fmap_cons. cbn [foldl]. rewrite IH. unfold step.
    rewrite posts_loop_body, py_slice_batch. by rewrite <- app_assoc.
Qed.

Lemma posts_run :
  posts (trace (check_index_bulk_run be urls api_key)) =
    (λ b, Post api_key (make_payload b)) <$> batches urls.
Proof.
  rewrite run_offsets, posts_run_from, batches_slices. simpl.
  by rewrite <- list_fmap_compose.
Qed.

Lemma responses_slices :
  responses be urls api_key =
    (λ k, be k api_key (make_payload (batch k))) <$> seq 0 count.
Proof.
  unfold responses. rewrite batches_slices. apply list_eq. intros k.
  rewrite list_lookup_imap, !list_lookup_fmap.
  destruct (seq 0 count !! k) as [k'|] eqn:Hk; [| done].
  by apply lookup_seq in Hk as [-> _].
Qed.

(** The pauses of a run: one for each batch whose answer does not take
    the [continue] of the status check. *)
Lemma sleeps_run :
  sleeps (trace (check_index_bulk_run be urls api_key)) =
    flat_map (λ r, if status_failure r then [] else [Sleep 1])
             (responses be urls api_key).
Proof.
  rewrite run_offsets, responses_slices.
  pose (P := λ k st,
    sleeps (trace st) =
      flat_map (λ r, if status_failure r then [] else [Sleep 1])
        ((λ k, be k api_key (make_payload (batch k))) <$> seq 0 k)).
  apply (run_from_ind P count 0 (State ∅ [])); [| done | done].
  intros k st Hlen _ HP. unfold P, step.
  rewrite sleeps_loop_body, HP, seq_S, fmap_app, flat_map_app. simpl.
  by rewrite app_nil_r, Hlen, py_slice_batch.
Qed.

(** The keys of the returned mapping are input URLs. *)
Lemma dom_check_index_bulk_subseteq :
  dom (check_index_bulk be urls api_key) ⊆ list_to_set urls.
Proof.
  unfold check_index_bulk. rewrite run_offsets.
  pose (P := λ (k : nat) st, dom (indexed_map st) ⊆@{gset string} list_to_set urls).
  apply (run_from_ind P count 0 (State ∅ [])); [| done | done].
  intros k st _ _ HP u Hu. unfold P in HP.
  destruct (decide (u ∈ py_slice urls (k * 20) (k * 20 + BATCH_SIZE))) as [Hin|Hin].
  - rewrite py_slice_batch in Hin. apply elem_of_list_to_set.
    by eapply subseteq_drop, subseteq_take.
  - apply HP. apply elem_of_dom. apply elem_of_dom in Hu.
    unfold step in Hu. by rewrite loop_body_lookup_other in Hu.
Qed.

(** When every answer is complete, the returned mapping has a verdict
    for each input URL, and for nothing else. *)
Lemma dom_check_index_bulk :
  (∀ k b, batches urls !! k = Some b →
          complete_response b (be k api_key (make_payload b))) →
  dom (check_index_bulk be urls api_key) = list_to_set urls.
Proof.
  intros Hcomplete. unfold check_index_bulk. rewrite run_offsets.
  pose (P := λ (k : nat) st,
    dom (indexed_map st) =@{gset string} list_to_set (take (k * 20) urls)).
  destruct (run_from_ind P count 0 (State ∅ [])) as [HP _]; [| done | done |].
  - intros k st Hlen [_ Hk] HP. unfold P, step in *.
    rewrite dom_loop_body, HP.
    + rewrite py_slice_batch.
      replace (S k * 20) with (k * 20 + 20) by lia.
      rewrite <- take_take_drop, list_to_set_app_L. set_solver.
    + rewrite Hlen, py_slice_batch. apply Hcomplete.
      apply batches_lookup. split; [done | done].
  - unfold P in HP. rewrite HP, take_ge; [done |].
    pose proof (div_up_bounds (length urls)). simpl. unfold count. lia.
Qed.

Lemma run_from_lookup_other u n a st :
  (∀ k, a ≤ k < a + n → u ∉ batch k) →
  indexed_map (foldl step st (offsets a n)) !! u = indexed_map st !! u.
Proof.
  revert a st. induction n as [|n IH]; intros a st Hu; [done |].
  change (offsets a (S n)) with (a * 20 :: offsets (S a) n). cbn [foldl].
  rewrite IH.
  - unfold step. apply loop_body_lookup_other. rewrite py_slice_batch.
    apply Hu. lia.
  - intros k ?. apply Hu. lia.
Qed.

Lemma take_offsets k : k ≤ count → take k (offsets 0 count) = offsets 0 k.
Proof.
  intros Hk. unfold offsets. rewrite <- fmap_take, take_seq.
  by rewrite Nat.min_l.
Qed.

Lemma drop_offsets k : drop k (offsets 0 count) = offsets k (count - k).
Proof. unfold offsets. by rewrite <- fmap_drop, drop_seq. Qed.

(** The state after the first [k] iterations. *)
Lemma run_prefix k :
  k ≤ count →
  length (posts (trace (foldl step (State ∅ []) (offsets 0 k)))) = k.
Proof.
  intros Hk.
  by destruct (run_from_ind (λ _ _, True) k 0 (State ∅ [])) as [_ ?].
Qed.
End run.


(** ** BulkIndexChecker: the stated properties *)

(** C10.  On an empty URL list [check_index_bulk] returns the empty
    mapping, and the run issues no backend request and makes no pause
    (its trace is empty). *)
Theorem check_index_bulk_empty (be : backend) (api_key : string) :
  check_index_bulk be [] api_key = ∅
  ∧ trace (check_index_bulk_run be [] api_key) = []
  ∧ posts (trace (check_index_bulk_run be [] api_key)) = []
  ∧ sleeps (trace (check_index_bulk_run be [] api_key)) = [].
Proof. done. Qed.

(** C5.  For [N] input URLs the run issues exactly [ceil(N/20)] backend
    calls, one per batch and in the order of the batches.  The batches
    are the consecutive slices [urls[20k : 20k+20]]: put end to end they
    give back [urls], each has between 1 and 20 URLs, and all but the
    last have exactly 20.  The payload of a call has exactly one query
    per URL of its batch, at the same position: the trimmed URL between
    double quotes. *)
Theorem batch_partitioning (be : backend) (urls : list string) (api_key : string) :
  posts (trace (check_index_bulk_run be urls api_key))
    = (λ batch, Post api_key (make_payload batch)) <$> batches urls
  ∧ length (posts (trace (check_index_bulk_run be urls api_key)))
    = (length urls + 19) / 20
  ∧ length urls ≤ 20 * length (batches urls) < length urls + 20
  ∧ concat (batches urls) = urls
  ∧ (∀ k batch, batches urls !! k = Some batch →
       batch = take 20 (drop (20 * k) urls)
       ∧ 1 ≤ length batch ≤ 20
       ∧ (S k < length (batches urls) → length batch = 20))
  ∧ (∀ batch, ∃ queries,
       make_payload batch = JArr queries
       ∧ length queries = length batch
       ∧ ∀ j u, batch !! j = Some u →
           queries !! j = Some (JObj [("q", JStr (dquote +:+ strip u +:+ dquote))])).
Proof.
  pose proof (div_up_bounds (length urls)) as Hceil.
  split_and!.
  - apply posts_run.
  - by rewrite posts_run, length_fmap, length_batches.
  - rewrite length_batches. lia.
  - rewrite length_batches. lia.
  - rewrite batches_slices, concat_slices, take_ge; [done | lia].
  - intros k batch [Hk ->]%batches_lookup. rewrite length_batches.
    apply lt_div_up in Hk. rewrite length_take, length_drop.
    split_and!; [f_equal; f_equal; lia | lia | lia |].
    intros Hnext%lt_div_up. lia.
  - intros batch. eexists. split; [done |]. split; [by rewrite length_fmap |].
    intros j u Hj. by rewrite list_lookup_fmap, Hj.
Qed.

(** C2.  When the backend call of a batch fails (the call raises, the
    status code is not 200, the body cannot be parsed, or reading the
    parsed body raises), then right after that batch every URL of it is
    mapped to [False], including those that got a verdict before the
    exception; the run goes
    on with the following batches, so every batch still gets its
    request; a URL of the failed batch that no later batch contains is
    [False] in the returned mapping; and the verdict of every URL
    outside the failed batch is the same as in any run that differs
    only in the answer to that batch.  The function is total: nothing
    is raised to the caller. *)
Theorem failed_batch_isolated (be : backend) (urls : list string)
    (api_key : string) (k : nat) (batch : list string) :
  batches urls !! k = Some batch →
  failed_response batch (be k api_key (make_payload batch)) →
  let offsets := py_range 0 (length urls) BATCH_SIZE in
  let after := foldl (loop_body be urls api_key) (State ∅ []) (take (S k) offsets) in
  (∀ u, u ∈ batch → indexed_map after !! u = Some false)
  ∧ check_index_bulk_run be urls api_key
    = foldl (loop_body be urls api_key) after (drop (S k) offsets)
  ∧ length (posts (trace (check_index_bulk_run be urls api_key)))
    = length (batches urls)
  ∧ (∀ u, u ∈ batch →
       (∀ k' batch', k < k' → batches urls !! k' = Some batch' → u ∉ batch') →
       check_index_bulk be urls api_key !! u = Some false)
  ∧ (∀ be' : backend,
       (∀ k' key payload, k' ≠ k → be' k' key payload = be k' key payload) →
       ∀ u, u ∉ batch →
         check_index_bulk be' urls api_key !! u = check_index_bulk be urls api_key !! u).
Proof.
  intros [Hk ->]%batches_lookup Hfail offsets after.
  assert (Hafter : ∀ u, u ∈ take 20 (drop (k * 20) urls) →
                        indexed_map after !! u = Some false).
  { intros u Hu. unfold after, offsets.
    rewrite py_range_offsets, take_offsets by lia.
    rewrite seq_S, fmap_app, foldl_app. simpl.
    apply loop_body_failed.
    - rewrite run_prefix by lia. by rewrite py_slice_batch.
    - by rewrite py_slice_batch. }
  assert (Hrun : check_index_bulk_run be urls api_key
                 = foldl (loop_body be urls api_key) after (drop (S k) offsets)).
  { unfold after, check_index_bulk_run. fold offsets.
    by rewrite <- foldl_app, take_drop. }
  clearbody after. split_and!; [done | done | ..].
  - by rewrite posts_run, length_fmap.
  - intros u Hu Hlater. unfold check_index_bulk. rewrite Hrun. unfold offsets.
    rewrite py_range_offsets, drop_offsets, run_from_lookup_other;
      [by apply Hafter |].
    intros k' Hk' Hin. eapply (Hlater k'); [lia | | done].
    apply batches_lookup. split; [lia | done].
  - intros be' Hsame u Hu. unfold check_index_bulk. rewrite !run_offsets.
    by apply (run_from_agree be' be urls api_key k).
Qed.

Lemma failed_batch_isolated_witness :
  batches ["a.com/x"; "a.com/y"] !! 0 = Some ["a.com/x"; "a.com/y"]
  ∧ failed_response ["a.com/x"; "a.com/y"]
      (rate_limited 0 "key" (make_payload ["a.com/x"; "a.com/y"]))
  ∧ check_index_bulk rate_limited ["a.com/x"; "a.com/y"] "key" !! "a.com/y" = Some false.
Proof.
  split; [reflexivity |]. split; [by constructor |].
  destruct (failed_batch_isolated rate_limited ["a.com/x"; "a.com/y"] "key" 0
              ["a.com/x"; "a.com/y"]) as (_ & _ & _ & Hfinal & _).
  - reflexivity.
  - by constructor.
  - apply Hfinal.
    + apply list_elem_of_In. simpl. tauto.
    + intros k' batch' Hk' Hlookup. destruct k'; [lia | discriminate].
Defined.


(** C1 (the code departs from it).  The backend answers the call for two
    URLs with status 200 and a single result-set: the second URL gets no
    entry in the returned mapping. *)
Theorem short_answer_drops_url :
  check_index_bulk one_result_set ["a.com/x"; "a.com/y"] "key" !! "a.com/x" = Some true
  ∧ check_index_bulk one_result_set ["a.com/x"; "a.com/y"] "key" !! "a.com/y" = None
  ∧ dom (check_index_bulk one_result_set ["a.com/x"; "a.com/y"] "key")
    ≠ list_to_set ["a.com/x"; "a.com/y"].
Proof.
  assert (Hy : check_index_bulk one_result_set ["a.com/x"; "a.com/y"] "key"
               !! "a.com/y" = None) by (by vm_compute).
  split_and!; [by vm_compute | done |].
  intros Hdom. apply not_elem_of_dom in Hy. apply Hy. rewrite Hdom.
  apply elem_of_list_to_set, list_elem_of_In. simpl. tauto.
Qed.

(** C7 (the code departs from it).  A batch answered with a status code
    other than 200 is followed by no pause: the run ends with the
    [print].  A batch whose call raises is followed by the pause. *)
Theorem no_pause_after_status_failure :
  trace (check_index_bulk_run rate_limited ["a.com/x"] "key")
    = [Post "key" (make_payload ["a.com/x"]); Print]
  ∧ sleeps (trace (check_index_bulk_run rate_limited ["a.com/x"] "key")) = []
  ∧ trace (check_index_bulk_run unreachable ["a.com/x"] "key")
    = [Post "key" (make_payload ["a.com/x"]); Print; Sleep 1].
Proof. split_and!; by vm_compute. Qed.

(** ** The matching rule *)

Lemma any_link_contains_spec (needle : string) (items : list json) (found : bool) :
  any_link_contains needle items = Some found →
  (found = true ↔
     ∃ item link, item ∈ items ∧ item_get_link item = Some link
                  ∧ str_in needle (rstrip_slash link) = true).
Proof.
  induction items as [|item rest IH]; simpl.
  - intros [= <-]. split; [done |]. intros (item & link & Hin & _). inversion Hin.
  - unfold item_link. destruct (item_get_link item) as [link|] eqn:Hlink; [| done].
    simpl. destruct (str_in needle (rstrip_slash link)) eqn:Hin.
    + intros [= <-]. split; [| done]. intros _. exists item, link.
      split; [by left | done].
    + intros Hrest. rewrite (IH Hrest). split.
      * intros (item' & link' & ? & ? & ?). exists item', link'.
        split; [by right | done].
      * intros (item' & link' & [->|?]%elem_of_cons & Hlink' & Hin').
        -- congruence.
        -- by exists item', link'.
Qed.

Lemma is_found_spec (url : string) (res : json) (found : bool) :
  is_found url res = Some found →
  ∃ items, organic_items res = Some items ∧ (found = true ↔ link_match url items).
Proof.
  unfold is_found. destruct (organic_items res) as [items|]; [| done]. simpl.
  intros Hany. exists items. split; [done |].
  by apply any_link_contains_spec.
Qed.

(** The two examples of the specification: the trailing slash of the
    link is ignored, and a URL that is a prefix of the link matches. *)
Example trailing_slash_match :
  is_found "example.com/page" (organic ["https://example.com/page/"]) = Some true.
Proof. reflexivity. Qed.

Example prefix_match :
  is_found " example.com/page/ " (organic ["https://example.com/page2"]) = Some true.
Proof. reflexivity. Qed.

(** [any] stops at the first match: a malformed item after it is not
    read, a malformed item before it raises. *)
Example any_stops_at_first_match :
  is_found "a.com" (JObj [("organic", JArr [JObj [("link", JStr "a.com")]; JNull])])
    = Some true
  ∧ is_found "a.com" (JObj [("organic", JArr [JNull; JObj [("link", JStr "a.com")]])])
    = None.
Proof. by split. Qed.

(** An exception while the second result-set is read: the verdict
    already given to the first URL is overwritten with [False]. *)
Example exception_after_verdict :
  let verdicts :=
    check_index_bulk
      (λ _ _ _, Response 200 (Some (JArr [organic ["https://a.com/x"]; JNull])))
      ["a.com/x"; "a.com/y"] "key" in
  verdicts !! "a.com/x" = Some false ∧ verdicts !! "a.com/y" = Some false.
Proof. by vm_compute. Qed.

(** C3, as the code has it.  Take a batch whose answer has status 200
    and is read without an exception.  A URL at a position [j] that has
    a result-set (and that is at no later position that has one) is
    mapped to a verdict, and the verdict is [True] exactly when some
    organic result's link, with its trailing slashes removed, contains
    the trimmed URL with its trailing slashes removed as a substring.
    The link is not trimmed; a missing link counts as the empty string.
    The match is by substring: a link that has the compared URL anywhere
    inside it, for instance followed by a suffix, gives [True]. *)
Theorem indexed_iff_link_contains (be : backend) (urls : list string)
    (api_key : string) (st st' : state) (i j : nat) (body : json)
    (results : list json) (url : string) (res : json) :
  let batch := py_slice urls i (i + BATCH_SIZE) in
  be (length (posts (trace st))) api_key (make_payload batch)
    = Response 200 (Some body) →
  py_iter body = Some results →
  map_results batch 0 results (emit (Post api_key (make_payload batch)) st)
    = Completed st' →
  batch !! j = Some url →
  results !! j = Some res →
  (∀ j', j < j' → j' < length results → batch !! j' ≠ Some url) →
  ∃ items found,
    organic_items res = Some items
    ∧ indexed_map (loop_body be urls api_key st i) !! url = Some found
    ∧ (found = true ↔
         ∃ item link, item ∈ items ∧ item_get_link item = Some link
                      ∧ str_in (norm_url url) (rstrip_slash link) = true)
    ∧ (∀ item pre post,
         item ∈ items →
         item_get_link item = Some (pre +:+ norm_url url +:+ post) →
         found = true).
Proof.
  intros batch Hanswer Hiter Hrun Hj Hres Hlast.
  destruct (map_results_completed batch 0 results _ st' j url res Hrun)
    as (found & Hfound & Hlookup); [done.. |].
  destruct (is_found_spec url res found Hfound) as (items & Hitems & Hiff).
  exists items, found. split_and!; [done | | done |].
  - unfold loop_body, try_body. fold batch. rewrite Hanswer. simpl.
    rewrite Hiter. simpl. by rewrite Hrun.
  - intros item pre post Hin Hlink. apply Hiff. exists item, (pre +:+ norm_url url +:+ post).
    split_and!; [done.. |]. apply norm_url_in_rstrip_slash.
Qed.

Lemma indexed_iff_link_contains_witness :
  ∃ items found,
    organic_items (organic ["https://example.com/page2"]) = Some items
    ∧ indexed_map (loop_body
        (λ _ _ _, Response 200 (Some (JArr [organic ["https://example.com/page2"]])))
        ["example.com/page"] "key" (State ∅ []) 0) !! "example.com/page" = Some found
    ∧ found = true.
Proof.
  destruct (indexed_iff_link_contains
              (λ _ _ _, Response 200 (Some (JArr [organic ["https://example.com/page2"]])))
              ["example.com/page"] "key" (State ∅ [])
              (State {["example.com/page" := true]}
                     [Post "key" (make_payload ["example.com/page"])])
              0 0 (JArr [organic ["https://example.com/page2"]])
              [organic ["https://example.com/page2"]]
              "example.com/page" (organic ["https://example.com/page2"]))
    as (items & found & Hitems & Hlookup & Hiff & Hsub).
  - reflexivity.
  - reflexivity.
  - reflexivity.
  - reflexivity.
  - reflexivity.
  - intros j' Hj' Hlen. simpl in Hlen. lia.
  - exists items, found. split; [done |]. split; [done |].
    injection Hitems as <-.
    apply (Hsub (JObj [("link", JStr "https://example.com/page2")]) "https://" "2").
    + by left.
    + reflexivity.
Defined.

(** C3 as it is stated fails: the only link of the result-set ends with
    a space, and the URL, once trimmed and without its trailing slash,
    ends with a space too.  The code marks the URL as indexed; with the
    link trimmed as well there is no match. *)
Lemma link_is_not_trimmed :
  check_index_bulk spaced_link ["a.com/x /"] "key" !! "a.com/x /" = Some true
  ∧ organic_items (organic ["https://a.com/x "])
    = Some [JObj [("link", JStr "https://a.com/x ")]]
  ∧ ¬ trimmed_link_match "a.com/x /" [JObj [("link", JStr "https://a.com/x ")]].
Proof.
  split_and!; [by vm_compute | done |].
  intros (item & link & Hin & Hlink & Hmatch).
  apply list_elem_of_singleton in Hin as ->.
  injection Hlink as <-. by vm_compute in Hmatch.
Qed.


(** ** PageDiagnoser: the stated properties *)

Section diagnoser_properties.
Context {soup tag : Type} `{!BeautifulSoup soup tag}.
Implicit Types (get : fetcher) (gemini_client : llm) (url : string) (e : exn).

Lemma handle_cases e :
  (is_timeout e = true → handle e = timeout_message)
  ∧ (is_timeout e = false → is_connection_error e = true →
     handle e = refused_message)
  ∧ (is_timeout e = false → is_connection_error e = false →
     handle e = "Error: " +:+ message e).
Proof.
  unfold handle. destruct (is_timeout e), (is_connection_error e); by split_and!.
Qed.

(** What the [try] body does once the page is fetched. *)
Lemma diagnosis_try_fetched get gemini_client url res :
  get url headers 15 = Ok res →
  diagnosis_try get gemini_client url =
    if bool_decide (status_code res ≠ 200%Z) then
      Ok (blocked_message (status_code res))
    else
      match parser_rejects (text res) with
      | Some msg => Raise (Exn false false msg)
      | None =>
          match gemini_client MODEL (diagnosis_prompt url (text res)) with
          | Raise e => Raise e
          | Ok None => Raise none_strip_error
          | Ok (Some t) => Ok (strip t)
          end
      end.
Proof.
  intros Hget. unfold diagnosis_try. rewrite Hget. simpl.
  case_bool_decide; [done |].
  destruct (parser_rejects (text res)); [done |].
  by destruct (gemini_client _ _) as [[t|]|e].
Qed.

(** A page with status code 200 that the parser accepts: the model is
    called with the prompt of the page, and its answer decides. *)
Lemma get_ai_diagnosis_parsed get gemini_client url res :
  get url headers 15 = Ok res →
  status_code res = 200%Z →
  parser_rejects (text res) = None →
  get_ai_diagnosis get gemini_client url
  = model_outcome (gemini_client MODEL (diagnosis_prompt url (text res))).
Proof.
  intros Hget Hcode Hparse. unfold get_ai_diagnosis.
  rewrite (diagnosis_try_fetched _ _ _ _ Hget), Hcode, Hparse. simpl.
  by destruct (gemini_client _ _) as [[t|]|e].
Qed.

(** A page with status code 200 that the parser rejects: the message of
    the parser is reported and the model is not called. *)
Lemma get_ai_diagnosis_rejected get gemini_client url res (msg : string) :
  get url headers 15 = Ok res →
  status_code res = 200%Z →
  parser_rejects (text res) = Some msg →
  get_ai_diagnosis get gemini_client url = "Error: " +:+ msg.
Proof.
  intros Hget Hcode Hparse. unfold get_ai_diagnosis.
  by rewrite (diagnosis_try_fetched _ _ _ _ Hget), Hcode, Hparse.
Qed.

Lemma diagnosis_try_fetch_raises get gemini_client url e :
  get url headers 15 = Raise e →
  diagnosis_try get gemini_client url = Raise e.
Proof. intros Hget. unfold diagnosis_try. by rewrite Hget. Qed.

Lemma blocked_message_names_code (code : Z) :
  str_in (str_of_int code) (blocked_message code) = true.
Proof. apply str_in_spec. by eexists _, _. Qed.

Lemma blocked_message_not_error (code : Z) (msg : string) :
  blocked_message code ≠ "Error: " +:+ msg.
Proof. unfold blocked_message. rewrite !append_cons. discriminate. Qed.

(** C4.  [get_ai_diagnosis] is a total function to strings: whatever the
    fetch and the model do, it returns one of five kinds of string and
    raises nothing.  An exception raised inside the [try], by the fetch
    or after it, gives the time-out string when it is a [Timeout], the
    connection-refused string when it is a [ConnectionError] that is not
    a [Timeout], and otherwise the string ["Error: "] followed by the
    message of the exception as it is.  A fetch with a status code
    outside 200..299 gives the string that names the status code.  The
    time-out, connection-refused and status-code strings differ from
    one another, and the status-code string differs from every
    ["Error: ..."] string. *)
Theorem diagnosis_never_raises get gemini_client url :
  let diagnosis := get_ai_diagnosis get gemini_client url in
  ((∃ code, diagnosis = blocked_message code)
   ∨ diagnosis = timeout_message
   ∨ diagnosis = refused_message
   ∨ (∃ e, diagnosis = "Error: " +:+ message e)
   ∨ (∃ t, diagnosis = strip t))
  ∧ (∀ e, get url headers 15 = Raise e ∨ diagnosis_try get gemini_client url = Raise e →
       (is_timeout e = true → diagnosis = timeout_message)
       ∧ (is_timeout e = false → is_connection_error e = true →
          diagnosis = refused_message)
       ∧ (is_timeout e = false → is_connection_error e = false →
          diagnosis = "Error: " +:+ message e))
  ∧ (∀ res, get url headers 15 = Ok res →
       (status_code res < 200 ∨ 300 ≤ status_code res)%Z →
       diagnosis = blocked_message (status_code res)
       ∧ str_in (str_of_int (status_code res)) diagnosis = true)
  ∧ timeout_message ≠ refused_message
  ∧ (∀ code, blocked_message code ≠ timeout_message
             ∧ blocked_message code ≠ refused_message
             ∧ ∀ msg, blocked_message code ≠ "Error: " +:+ msg).
Proof.
  intros diagnosis. split_and!.
  - unfold diagnosis, get_ai_diagnosis.
    destruct (diagnosis_try get gemini_client url) as [s|e] eqn:Htry.
    + unfold diagnosis_try in Htry.
      destruct (get url headers 15) as [res|e]; simpl in Htry; [| done].
      case_bool_decide; [injection Htry as <-; left; by eexists |].
      destruct (parser_rejects (text res)); [done |].
      destruct (gemini_client _ _) as [[t|]|e]; simpl in Htry; try done.
      injection Htry as <-. do 4 right. by eexists.
    + destruct (handle_cases e) as (Ht & Hc & Ho).
      destruct (is_timeout e); [right; left; by apply Ht |].
      destruct (is_connection_error e); [right; right; left; by apply Hc |].
      do 3 right. left. exists e. by apply Ho.
  - intros e Hraise.
    assert (Htry : diagnosis_try get gemini_client url = Raise e).
    { destruct Hraise as [Hget|Htry]; [| done].
      by apply diagnosis_try_fetch_raises. }
    unfold diagnosis, get_ai_diagnosis. rewrite Htry. apply handle_cases.
  - intros res Hget Hcode. unfold diagnosis, get_ai_diagnosis.
    rewrite (diagnosis_try_fetched _ _ _ _ Hget).
    rewrite bool_decide_true by lia.
    split; [done | apply blocked_message_names_code].
  - discriminate.
  - intros code. split_and!.
    + apply (blocked_message_not_error code "Connection timed out (Site is slow).").
    + apply (blocked_message_not_error code "Connection refused (Bot protection).").
    + apply blocked_message_not_error.
Qed.

(** C6, as the code has it.  When the fetch returns status code 200
    and the parser accepts the body, the body is parsed, the title is
    taken, the script and style elements are removed, the text is
    extracted and cut, and the prompt built from them is sent to the
    model; when the model answers with a text, the function returns
    that text trimmed. *)
Theorem diagnosis_of_fetched_page get gemini_client url (res : page) (t : string) :
  get url headers 15 = Ok res →
  status_code res = 200%Z →
  parser_rejects (text res) = None →
  gemini_client MODEL
    (build_prompt url
       (page_title url (html_parser (text res)))
       (str_take 1500
          (get_text " " true
             (extract_all ["script"; "style"] (html_parser (text res))))))
    = Ok (Some t) →
  get_ai_diagnosis get gemini_client url = strip t.
Proof.
  intros Hget Hcode Hparse Hmodel.
  rewrite (get_ai_diagnosis_parsed _ _ _ _ Hget Hcode Hparse).
  unfold diagnosis_prompt, page_text. by rewrite Hmodel.
Qed.

(** C8, as the code has it.  For a page fetched with status code 200
    that the parser accepts, the model is called with the prompt spelled
    out below, whose title line carries the title.  The title is the
    URL when the page has no title element, and when the [.string] of
    its title element is [None] (the element has no child, or more than
    one, whatever text it has) or empty; otherwise it is that string,
    trimmed. *)
Theorem title_falls_back_to_url get gemini_client url (res : page) :
  get url headers 15 = Ok res →
  status_code res = 200%Z →
  parser_rejects (text res) = None →
  let sp := html_parser (text res) in
  let title := page_title url sp in
  get_ai_diagnosis get gemini_client url
  = model_outcome
      (gemini_client MODEL
         ("Analyze this web page for SEO indexing issues." +:+ nl +:+
          "URL: " +:+ url +:+ nl +:+
          "Content Extracted:" +:+ nl +:+
          "Title: " +:+ title +:+ nl +:+
          "Page Text Snippet: " +:+ page_text sp +:+ nl +:+ nl +:+
          "Task: The page is NOT indexed by Google. Based on the content above, " +:+
          "give 1 likely technical or content reason (e.g., 'Thin content', 'Under construction', 'Login wall', 'Technical error')." +:+
          "Keep it under 15 words."))
  ∧ (soup_title sp = None → title = url)
  ∧ (∀ t, soup_title sp = Some t →
       tag_string t = None ∨ tag_string t = Some EmptyString →
       title = url)
  ∧ (∀ t s, soup_title sp = Some t → tag_string t = Some s → s ≠ EmptyString →
       title = strip s).
Proof.
  intros Hget Hcode Hparse sp title. split_and!.
  - rewrite (get_ai_diagnosis_parsed _ _ _ _ Hget Hcode Hparse).
    unfold diagnosis_prompt, build_prompt. fold sp title.
    by rewrite !append_assoc.
  - unfold title, page_title. by intros ->.
  - unfold title, page_title. by intros t -> [-> | ->].
  - unfold title, page_title. intros t s -> -> Hs. by destruct s.
Qed.

(** C9.  The text snippet that is put in the prompt has at most 1500
    characters, whatever the page. *)
Theorem page_text_bounded url (html : string) :
  String.length (page_text (html_parser html)) ≤ 1500
  ∧ ∃ before after,
      diagnosis_prompt url html
      = before +:+ page_text (html_parser html) +:+ after.
Proof.
  split; [apply length_str_take |].
  unfold diagnosis_prompt, build_prompt.
  set (snippet := page_text (html_parser html)).
  set (title := page_title url (html_parser html)).
  exists ("Analyze this web page for SEO indexing issues." +:+ nl +:+
          "URL: " +:+ url +:+ nl +:+ "Content Extracted:" +:+ nl +:+
          "Title: " +:+ title +:+ nl +:+ "Page Text Snippet: ").
  eexists. rewrite !append_assoc. reflexivity.
Qed.
End diagnoser_properties.

(** The prompt built for the sample page: the title is trimmed, and the
    text of the script and style elements is not in the snippet. *)
Example diagnosis_prompt_sample :
  diagnosis_prompt "https://a.com/x" "page"
  = build_prompt "https://a.com/x" "Coming soon" "Coming soon Hello world".
Proof. reflexivity. Qed.

Lemma diagnosis_never_raises_witness :
  fetch_raises (Exn true true "connect timeout") "https://a.com/x" headers 15
    = Raise (Exn true true "connect timeout")
  ∧ get_ai_diagnosis (fetch_raises (Exn true true "connect timeout"))
      (model_says "Thin content") "https://a.com/x"
    = "Error: Connection timed out (Site is slow).".
Proof.
  split; [reflexivity |].
  destruct (diagnosis_never_raises (fetch_raises (Exn true true "connect timeout"))
              (model_says "Thin content") "https://a.com/x")
    as (_ & Hraise & _).
  destruct (Hraise (Exn true true "connect timeout")) as (Htimeout & _).
  - left. reflexivity.
  - apply Htimeout. reflexivity.
Defined.

Lemma diagnosis_of_fetched_page_witness :
  fetch_status 200 "page" "https://a.com/x" headers 15 = Ok (Page 200 "page")
  ∧ status_code (Page 200 "page") = 200%Z
  ∧ parser_rejects "page" = None
  ∧ get_ai_diagnosis (fetch_status 200 "page") (model_says " Thin content. ")
      "https://a.com/x"
    = "Thin content.".
Proof.
  split; [reflexivity |]. split; [reflexivity |]. split; [reflexivity |].
  apply (diagnosis_of_fetched_page (fetch_status 200 "page")
           (model_says " Thin content. ") "https://a.com/x"
           (Page 200 "page") " Thin content. "); reflexivity.
Defined.

(** C6 as it is stated fails: a fetch that returns status code 204, a
    2xx code, is answered with the status-code string, not with the
    text of the model. *)
Lemma success_status_other_than_200 :
  (200 ≤ 204 < 300)%Z
  ∧ get_ai_diagnosis (fetch_status 204 "page") (model_says "Thin content")
      "https://a.com/x"
    = "Site blocked the crawler (Status Code: 204)."
  ∧ get_ai_diagnosis (fetch_status 204 "page") (model_says "Thin content")
      "https://a.com/x"
    ≠ strip "Thin content".
Proof. split; [lia |]. split; [reflexivity | discriminate]. Qed.

(** A title made of blanks is not empty: the title of the prompt is
    then the empty string, not the URL. *)
Example blank_title_is_kept :
  page_title "https://a.com/x" (html_parser "blank") = EmptyString.
Proof. reflexivity. Qed.

Lemma title_falls_back_to_url_witness :
  fetch_status 200 "untitled" "https://a.com/x" headers 15 = Ok (Page 200 "untitled")
  ∧ parser_rejects "untitled" = None
  ∧ page_title "https://a.com/x" (html_parser "untitled") = "https://a.com/x"
  ∧ page_title "https://a.com/x" (html_parser "page") = "Coming soon".
Proof.
  destruct (title_falls_back_to_url (fetch_status 200 "untitled")
              (model_says "Thin content") "https://a.com/x" (Page 200 "untitled"))
    as (_ & Hnone & _); [reflexivity.. |].
  destruct (title_falls_back_to_url (fetch_status 200 "page")
              (model_says "Thin content") "https://a.com/x" (Page 200 "page"))
    as (_ & _ & _ & Hsome); [reflexivity.. |].
  split; [reflexivity |]. split; [reflexivity |]. split.
  - apply Hnone. reflexivity.
  - apply (Hsome (Element "title" [Text "  Coming soon "]) "  Coming soon ");
      [reflexivity | reflexivity | discriminate].
Defined.

(** C8 as it is stated fails: the title element of
    [<title>My <b>Shop</b></title>] has the text ["My Shop"], which is
    not empty, but it has two children, so its [.string] is [None] and
    the title of the prompt is the URL, not that text. *)
Lemma nested_title_uses_url :
  ∃ title_element,
    soup_title (html_parser "<title>My <b>Shop</b></title>") = Some title_element
    ∧ node_text title_element = "My Shop"
    ∧ tag_string title_element = None
    ∧ page_title "https://a.com/x" (html_parser "<title>My <b>Shop</b></title>")
      = "https://a.com/x"
    ∧ page_title "https://a.com/x" (html_parser "<title>My <b>Shop</b></title>")
      ≠ strip (node_text title_element)
    ∧ diagnosis_prompt "https://a.com/x" "<title>My <b>Shop</b></title>"
      = build_prompt "https://a.com/x" "https://a.com/x" "My Shop".
Proof.
  exists (Element "title" [Text "My "; Element "b" [Text "Shop"]]).
  split_and!; try reflexivity. discriminate.
Qed.

(** A page with status code 200 whose markup the parser rejects: the
    message of the parser is reported, whatever the model would say. *)
Example rejected_markup_is_reported :
  get_ai_diagnosis (fetch_status 200 "rejected") (model_says "Thin content")
    "https://a.com/x"
  = "Error: parser rejected the markup".
Proof. reflexivity. Qed.

(** * Further properties *)

(** ** Trimming *)

Section trimming.
Implicit Types (s t u : string) (p : ascii -> bool) (c : ascii).

Lemma length_lstrip_chars p s :
  String.length (lstrip_chars p s) ≤ String.length s.
Proof.
  induction s as [|c s IH]; simpl; [done |]. destruct (p c); simpl; lia.
Qed.

Lemma lstrip_chars_idemp p s :
  lstrip_chars p (lstrip_chars p s) = lstrip_chars p s.
Proof.
  induction s as [|c s IH]; simpl; [done |].
  destruct (p c) eqn:Hc; [done |]. simpl. by rewrite Hc.
Qed.

Lemma lstrip_rstrip_fixed p t :
  lstrip_chars p t = t →
  lstrip_chars p (rstrip_chars p t) = rstrip_chars p t.
Proof.
  destruct t as [|c t]; [done |]. simpl.
  destruct (p c) eqn:Hc.
  - intros Heq. pose proof (length_lstrip_chars p t) as Hlen.
    rewrite Heq in Hlen. simpl in Hlen. lia.
  - intros _. destruct (rstrip_chars p t); simpl; by rewrite Hc.
Qed.

(** Trimming twice is trimming once. *)
Lemma strip_idemp s : strip (strip s) = strip s.
Proof.
  unfold strip. rewrite lstrip_rstrip_fixed by apply lstrip_chars_idemp.
  apply rstrip_chars_idemp.
Qed.

Lemma lstrip_chars_suffix p s : ∃ a, s = a +:+ lstrip_chars p s.
Proof.
  induction s as [|c s [a IH]]; simpl; [by exists EmptyString |].
  destruct (p c).
  - exists (String c a). by rewrite append_cons, <- IH.
  - by exists EmptyString.
Qed.

Lemma rstrip_chars_prefix p s : ∃ b, s = rstrip_chars p s +:+ b.
Proof.
  induction s as [|c s [b IH]]; simpl; [by exists EmptyString |].
  destruct (rstrip_chars p s) as [|d r] eqn:Hr.
  - destruct (p c).
    + by exists (String c s).
    + exists s. by rewrite append_cons.
  - exists b. by rewrite append_cons, <- IH.
Qed.

(** The compared form of a URL is a piece of the URL. *)
Lemma norm_url_inside url : ∃ a b, url = a +:+ norm_url url +:+ b.
Proof.
  unfold norm_url, rstrip_slash, strip.
  destruct (lstrip_chars_suffix isspace url) as [a Ha].
  destruct (rstrip_chars_prefix isspace (lstrip_chars isspace url)) as [b1 Hb1].
  destruct (rstrip_chars_prefix is_slash
              (rstrip_chars isspace (lstrip_chars isspace url))) as [b2 Hb2].
  exists a, (b2 +:+ b1). by rewrite <- (append_assoc _ b2 b1), <- Hb2, <- Hb1.
Qed.

Lemma chars_lstrip p s c : c ∈ chars (lstrip_chars p s) → c ∈ chars s.
Proof.
  unfold chars. induction s as [|d s IH]; simpl; [done |].
  destruct (p d); [| done]. intros Hc. right. by apply IH.
Qed.

Lemma chars_rstrip p s c : c ∈ chars (rstrip_chars p s) → c ∈ chars s.
Proof.
  unfold chars. induction s as [|d s IH]; simpl; [done |].
  destruct (rstrip_chars p s) as [|e r].
  - destruct (p d); simpl; [inversion 1 |].
    intros ->%list_elem_of_singleton. by left.
  - simpl in *. intros [->|Hc]%elem_of_cons; [by left |].
    right. by apply IH.
Qed.

Lemma chars_strip s c : c ∈ chars (strip s) → c ∈ chars s.
Proof. intros Hc. by eapply chars_lstrip, chars_rstrip. Qed.

Lemma rstrip_chars_empty p s :
  rstrip_chars p s = EmptyString ↔ ∀ c, c ∈ chars s → p c = true.
Proof.
  unfold chars. induction s as [|d s IH]; simpl.
  - split; [| done]. intros _ c Hc. inversion Hc.
  - destruct (rstrip_chars p s) as [|e r].
    + destruct (p d) eqn:Hd.
      * split; [| done]. intros _ c [->|Hc]%elem_of_cons; [done |].
        by apply IH.
      * split; [done |]. intros Hall. rewrite Hall in Hd; [done | by left].
    + split; [done |]. intros Hall.
      assert (String e r = EmptyString) as [=].
      apply IH. intros c Hc. apply Hall. by right.
Qed.

Lemma lstrip_chars_all p s :
  (∀ c, c ∈ chars (lstrip_chars p s) → p c = true) ↔
  (∀ c, c ∈ chars s → p c = true).
Proof.
  unfold chars. induction s as [|d s IH]; simpl; [done |].
  destruct (p d) eqn:Hd; [| done]. rewrite IH. split.
  - intros Hall c [->|Hc]%elem_of_cons; [done | by apply Hall].
  - intros Hall c Hc. apply Hall. by right.
Qed.

(** A string trims to nothing exactly when it is made of blanks. *)
Lemma strip_empty s :
  strip s = EmptyString ↔ ∀ c, c ∈ chars s → isspace c = true.
Proof. unfold strip. by rewrite rstrip_chars_empty, lstrip_chars_all. Qed.
End trimming.

(** ** BulkIndexChecker: what else the code shows *)

Section more_on_the_loop.
Variables (be : backend) (urls : list string) (api_key : string).
Implicit Types (st : state) (i j k : nat) (u : string).

(** A verdict [True] after the loop over the results was there before,
    or was written for a result-set in which the URL was found. *)
Lemma map_results_true batch j0 results st u :
  indexed_map (outcome_state (map_results batch j0 results st)) !! u = Some true →
  indexed_map st !! u = Some true
  ∨ ∃ j res, batch !! (j0 + j) = Some u ∧ results !! j = Some res
             ∧ is_found u res = Some true.
Proof.
  revert j0 st. induction results as [|res0 rest IH]; intros j0 st; simpl; [by left |].
  destruct (batch !! j0) as [url|] eqn:Hj0; [| by left].
  destruct (is_found url res0) as [found|] eqn:Hfound; [| by left].
  intros [Hbefore | (j & res & Hj & Hres & Htrue)]%IH.
  - simpl in Hbefore. destruct (decide (url = u)) as [->|Hne].
    + rewrite lookup_insert_eq in Hbefore. injection Hbefore as ->.
      right. exists 0, res0. by rewrite Nat.add_0_r.
    + rewrite lookup_insert_ne in Hbefore by done. by left.
  - right. exists (S j), res. split; [| done].
    by replace (j0 + S j) with (S j0 + j) by lia.
Qed.

(** The loop over the results does not read past the batch. *)
Lemma map_results_surplus batch j results surplus st :
  length batch ≤ j + length results →
  map_results batch j (results ++ surplus) st = map_results batch j results st.
Proof.
  revert j st. induction results as [|res rest IH]; intros j st Hlen; simpl in *.
  - destruct surplus as [|res surplus]; [done |]. simpl.
    rewrite lookup_ge_None_2; [done | lia].
  - destruct (batch !! j) as [url|]; [| done].
    destruct (is_found url res) as [found|]; [| done].
    apply IH. lia.
Qed.

Lemma loop_body_true st i u :
  indexed_map (loop_body be urls api_key st i) !! u = Some true →
  indexed_map st !! u = Some true
  ∨ ∃ body results j res,
      be (length (posts (trace st))) api_key
         (make_payload (py_slice urls i (i + BATCH_SIZE)))
        = Response 200 (Some body)
      ∧ py_iter body = Some results
      ∧ py_slice urls i (i + BATCH_SIZE) !! j = Some u
      ∧ results !! j = Some res
      ∧ is_found u res = Some true.
Proof.
  unfold loop_body, try_body.
  set (batch := py_slice urls i (i + BATCH_SIZE)).
  set (request := Post api_key (make_payload batch)).
  assert (Hfalse : ∀ st0,
    indexed_map (mark_false batch st0) !! u = Some true →
    (u ∉ batch) ∧ indexed_map st0 !! u = Some true).
  { intros st0. rewrite lookup_mark_false. by case_decide. }
  destruct (be _ _ _) as [|code body] eqn:Hanswer; simpl.
  - intros [_ ?]%Hfalse. by left.
  - case_bool_decide as Hcode; simpl; [intros [_ ?]%Hfalse; by left |].
    subst code. destruct body as [body|]; simpl; [| intros [_ ?]%Hfalse; by left].
    destruct (py_iter body) as [results|] eqn:Hiter; simpl;
      [| intros [_ ?]%Hfalse; by left].
    pose proof (map_results_true batch 0 results (emit request st) u) as Htrue.
    pose proof (map_results_lookup_other batch 0 results (emit request st) u) as Hother.
    destruct (map_results _ _ _ _) as [st'|st'|st']; simpl in *.
    + intros [? | (j & res & ? & ? & ?)]%Htrue; [by left |].
      right. by exists body, results, j, res.
    + intros [? | (j & res & ? & ? & ?)]%Htrue; [by left |].
      right. by exists body, results, j, res.
    + intros [Hu Hst']%Hfalse. left. simpl in Hst'. by rewrite <- Hother.
Qed.
End more_on_the_loop.


(** X1.  The mapping [check_index_bulk] returns has verdicts for input
    URLs only: a key of it is one of the URLs it was given, as it was
    given. *)
Theorem verdict_only_for_input_urls (be : backend) (urls : list string)
    (api_key : string) (u : string) (verdict : bool) :
  check_index_bulk be urls api_key !! u = Some verdict →
  u ∈ urls.
Proof.
  intros Hu.
  assert (Hdom : u ∈ dom (check_index_bulk be urls api_key))
    by (apply elem_of_dom; by eexists).
  apply dom_check_index_bulk_subseteq in Hdom.
  by apply elem_of_list_to_set in Hdom.
Qed.

Lemma verdict_only_for_input_urls_witness :
  check_index_bulk one_result_set ["a.com/x"; "a.com/y"] "key" !! "a.com/x" = Some true
  ∧ "a.com/x" ∈ ["a.com/x"; "a.com/y"].
Proof.
  assert (H : check_index_bulk one_result_set ["a.com/x"; "a.com/y"] "key"
              !! "a.com/x" = Some true) by (by vm_compute).
  split; [exact H |].
  exact (verdict_only_for_input_urls one_result_set ["a.com/x"; "a.com/y"] "key"
           "a.com/x" true H).
Defined.

(** X2.  When every answer with status 200 and a body that can be
    iterated has at least as many result-sets as its batch has URLs,
    every input URL has a verdict in the returned mapping. *)
Theorem complete_answers_cover_urls (be : backend) (urls : list string)
    (api_key : string) :
  (∀ k batch, batches urls !! k = Some batch →
              complete_response batch (be k api_key (make_payload batch))) →
  ∀ u, u ∈ urls → is_Some (check_index_bulk be urls api_key !! u).
Proof.
  intros Hcomplete u Hu. apply elem_of_dom.
  rewrite dom_check_index_bulk by done. by apply elem_of_list_to_set.
Qed.

Lemma complete_answers_cover_urls_witness :
  (∀ k batch, batches ["a.com/x"] !! k = Some batch →
              complete_response batch (one_result_set k "key" (make_payload batch)))
  ∧ is_Some (check_index_bulk one_result_set ["a.com/x"] "key" !! "a.com/x").
Proof.
  assert (H : ∀ k batch, batches ["a.com/x"] !! k = Some batch →
                complete_response batch (one_result_set k "key" (make_payload batch))).
  { intros [|k] batch Hbatch; [| discriminate].
    injection Hbatch as <-. intros body results Hbody Hiter.
    injection Hbody as <-. injection Hiter as <-. simpl. lia. }
  split; [exact H |].
  apply (complete_answers_cover_urls one_result_set ["a.com/x"] "key" H).
  by left.
Defined.

(** X3.  A run pauses for one second once for each batch whose answer
    does not have a status code other than 200, and makes no other
    pause; so it pauses at most once per batch. *)
Theorem pauses_follow_batches (be : backend) (urls : list string)
    (api_key : string) :
  sleeps (trace (check_index_bulk_run be urls api_key))
    = replicate
        (length (filter (λ r, status_failure r = false) (responses be urls api_key)))
        (Sleep 1)
  ∧ length (sleeps (trace (check_index_bulk_run be urls api_key)))
    ≤ (length urls + 19) / 20.
Proof.
  rewrite sleeps_run.
  assert (Hflat : ∀ rs : list response,
    flat_map (λ r, if status_failure r then [] else [Sleep 1]) rs
    = replicate (length (filter (λ r, status_failure r = false) rs)) (Sleep 1)).
  { induction rs as [|r rs IH]; [done |]. simpl. rewrite filter_cons, IH.
    destruct (status_failure r); [by rewrite decide_False | by rewrite decide_True]. }
  rewrite Hflat. split; [done |].
  rewrite length_replicate.
  etrans; [apply length_filter |].
  unfold responses. by rewrite length_imap, length_batches.
Qed.

(** X4.  A URL is mapped to [True] only if some batch that contains it
    was answered with status 200 and, at a position of the URL, a
    result-set with an organic link that matches it. *)
Theorem true_verdict_has_matching_link (be : backend) (urls : list string)
    (api_key : string) (u : string) :
  check_index_bulk be urls api_key !! u = Some true →
  ∃ k, batch_finds be urls api_key k u.
Proof.
  unfold check_index_bulk. rewrite run_offsets.
  pose (P := λ (k : nat) (st : state),
    indexed_map st !! u = Some true →
    ∃ k', k' < k ∧ batch_finds be urls api_key k' u).
  destruct (run_from_ind be urls api_key P ((length urls + 19) / 20) 0 (State ∅ []))
    as [HP _]; [| done | done |].
  - intros k st Hlen [_ Hk] IH
      [Hbefore | (body & results & j & res & Hanswer & Hiter & Hj & Hres & Hfound)]%loop_body_true.
    + destruct (IH Hbefore) as (k' & ? & ?). exists k'. split; [lia | done].
    + exists k. split; [lia |].
      destruct (is_found_spec u res true Hfound) as (items & Hitems & Hmatch).
      rewrite Hlen, py_slice_batch in Hanswer. rewrite py_slice_batch in Hj.
      exists (take 20 (drop (k * 20) urls)), body, results, j, res, items.
      split_and!; try done; [by apply batches_lookup | by apply Hmatch].
  - intros Htrue. destruct (HP Htrue) as (k & _ & Hk). by exists k.
Qed.

Lemma true_verdict_has_matching_link_witness :
  check_index_bulk one_result_set ["a.com/x"; "a.com/y"] "key" !! "a.com/x" = Some true
  ∧ ∃ k, batch_finds one_result_set ["a.com/x"; "a.com/y"] "key" k "a.com/x".
Proof.
  assert (H : check_index_bulk one_result_set ["a.com/x"; "a.com/y"] "key"
              !! "a.com/x" = Some true) by (by vm_compute).
  split; [exact H |].
  exact (true_verdict_has_matching_link one_result_set ["a.com/x"; "a.com/y"] "key"
           "a.com/x" H).
Defined.


Lemma run_all_failed (be : backend) (urls : list string) (api_key : string) :
  (∀ k batch, batches urls !! k = Some batch →
              failed_response batch (be k api_key (make_payload batch))) →
  ∀ u, u ∈ urls → check_index_bulk be urls api_key !! u = Some false.
Proof.
  intros Hfail. unfold check_index_bulk. rewrite run_offsets.
  pose (P := λ (k : nat) (st : state),
    ∀ u, u ∈ take (k * 20) urls → indexed_map st !! u = Some false).
  destruct (run_from_ind be urls api_key P ((length urls + 19) / 20) 0 (State ∅ []))
    as [HP _]; [| done | | ].
  - intros k st Hlen [_ Hk] IH u Hu.
    replace (S k * 20) with (k * 20 + 20) in Hu by lia.
    rewrite <- take_take_drop in Hu.
    destruct (decide (u ∈ take 20 (drop (k * 20) urls))) as [Hin|Hout].
    + apply loop_body_failed; rewrite py_slice_batch; [| done].
      rewrite Hlen. apply Hfail. by apply batches_lookup.
    + rewrite loop_body_lookup_other by (by rewrite py_slice_batch).
      apply IH. by apply elem_of_app in Hu as [?|?].
  - intros u Hu. inversion Hu.
  - intros u Hu. apply HP. rewrite take_ge; [done |].
    pose proof (div_up_bounds (length urls)). lia.
Qed.

(** X5.  When the backend call of every batch fails, every input URL is
    mapped to [False]. *)
Theorem all_calls_fail_all_false (be : backend) (urls : list string)
    (api_key : string) :
  (∀ k batch, batches urls !! k = Some batch →
              failed_response batch (be k api_key (make_payload batch))) →
  ∀ u, u ∈ urls → check_index_bulk be urls api_key !! u = Some false.
Proof. apply run_all_failed. Qed.

Lemma all_calls_fail_all_false_witness :
  (∀ k batch, batches ["a.com/x"; "a.com/y"] !! k = Some batch →
              failed_response batch (unreachable k "key" (make_payload batch)))
  ∧ check_index_bulk unreachable ["a.com/x"; "a.com/y"] "key" !! "a.com/y" = Some false.
Proof.
  assert (H : ∀ k batch, batches ["a.com/x"; "a.com/y"] !! k = Some batch →
                failed_response batch (unreachable k "key" (make_payload batch)))
    by (intros; apply failed_transport).
  split; [exact H |].
  apply (all_calls_fail_all_false unreachable ["a.com/x"; "a.com/y"] "key" H).
  right. by left.
Defined.

(** X6.  Result-sets beyond the length of the batch are not read: an
    answer with surplus result-sets at its end leaves the same outcome
    as the answer without them. *)
Theorem surplus_result_sets_ignored (batch_urls : list string)
    (results surplus : list json) (st : state) :
  length batch_urls ≤ length results →
  map_results batch_urls 0 (results ++ surplus) st
  = map_results batch_urls 0 results st.
Proof. intros Hlen. by apply map_results_surplus. Qed.

Lemma surplus_result_sets_ignored_witness :
  length ["a.com/x"] ≤ length [organic ["https://a.com/x"]]
  ∧ map_results ["a.com/x"] 0 ([organic ["https://a.com/x"]] ++ [JNull]) (State ∅ [])
    = map_results ["a.com/x"] 0 [organic ["https://a.com/x"]] (State ∅ []).
Proof.
  assert (H : length ["a.com/x"] ≤ length [organic ["https://a.com/x"]])
    by (simpl; lia).
  split; [exact H |].
  exact (surplus_result_sets_ignored ["a.com/x"] [organic ["https://a.com/x"]]
           [JNull] (State ∅ []) H).
Defined.

(** X7.  Trimming the URL and removing the trailing slashes never lose
    a match: when [is_found] does not raise and the URL, as it was
    given, occurs in the link of an organic result, the URL is found. *)
Theorem verbatim_occurrence_is_found (url : string) (res : json)
    (items : list json) (item : json) (link : string) :
  is_Some (is_found url res) →
  organic_items res = Some items →
  item ∈ items →
  item_get_link item = Some link →
  str_in url link = true →
  is_found url res = Some true.
Proof.
  intros [found Hfound] Hitems Hitem Hlink (pre & post & ->)%str_in_spec.
  rewrite Hfound. f_equal.
  destruct (is_found_spec url res found Hfound) as (items' & Hitems' & Hiff).
  rewrite Hitems in Hitems'. injection Hitems' as <-.
  apply Hiff. exists item, (pre +:+ url +:+ post). split_and!; [done.. |].
  destruct (norm_url_inside url) as (a & b & Hurl).
  rewrite Hurl at 2. rewrite !append_assoc, <- (append_assoc pre a).
  apply norm_url_in_rstrip_slash.
Qed.

Lemma verbatim_occurrence_is_found_witness :
  str_in " a.com/x/ " "see a.com/x/ here" = true
  ∧ is_found " a.com/x/ " (organic ["see a.com/x/ here"; "b.com"]) = Some true.
Proof.
  split; [reflexivity |].
  apply (verbatim_occurrence_is_found " a.com/x/ "
           (organic ["see a.com/x/ here"; "b.com"])
           [JObj [("link", JStr "see a.com/x/ here")]; JObj [("link", JStr "b.com")]]
           (JObj [("link", JStr "see a.com/x/ here")]) "see a.com/x/ here").
  - by eexists.
  - reflexivity.
  - by left.
  - reflexivity.
  - reflexivity.
Defined.

(** ** PageDiagnoser: what else the code shows *)

Section more_on_the_diagnoser.
Context {soup tag : Type} `{!BeautifulSoup soup tag}.
Implicit Types (get : fetcher) (gemini_client : llm) (url : string).

Lemma length_build_prompt url (title snippet : string) :
  String.length (build_prompt url title snippet)
  = 313 + String.length url + String.length title + String.length snippet.
Proof.
  unfold build_prompt. rewrite !length_append. simpl. lia.
Qed.

(** X8.  The model is consulted only after a fetch with status code
    200: when the fetch raises or returns another status code, the
    diagnosis is the same whatever the model would answer. *)
Theorem model_not_consulted_unless_200 get (gemini_client other_client : llm) url :
  (∀ res, get url headers 15 = Ok res → status_code res ≠ 200%Z) →
  get_ai_diagnosis get gemini_client url = get_ai_diagnosis get other_client url.
Proof.
  intros Hstatus. unfold get_ai_diagnosis.
  destruct (get url headers 15) as [res|e] eqn:Hget.
  - rewrite !(diagnosis_try_fetched _ _ _ _ Hget).
    by rewrite bool_decide_true by by apply Hstatus.
  - by rewrite !(diagnosis_try_fetch_raises _ _ _ _ Hget).
Qed.

(** X9.  A diagnosis that comes from the model (the page was fetched
    with status code 200, the parser accepted it and the model answered
    with a text) has no white space at its ends: trimming it again
    changes nothing. *)
Theorem model_diagnosis_is_trimmed get gemini_client url (res : page) (t : string) :
  get url headers 15 = Ok res →
  status_code res = 200%Z →
  parser_rejects (text res) = None →
  gemini_client MODEL (diagnosis_prompt url (text res)) = Ok (Some t) →
  strip (get_ai_diagnosis get gemini_client url)
  = get_ai_diagnosis get gemini_client url.
Proof.
  intros Hget Hcode Hparse Hmodel.
  rewrite (get_ai_diagnosis_parsed _ _ _ _ Hget Hcode Hparse), Hmodel. simpl.
  apply strip_idemp.
Qed.

(** X10.  The prompt is 313 characters longer than the URL, the title
    and the snippet together; the snippet has at most 1500 characters,
    the URL and the title are not cut. *)
Theorem prompt_length url (html : string) :
  String.length (diagnosis_prompt url html)
  = 313 + String.length url
    + String.length (page_title url (html_parser html))
    + String.length (page_text (html_parser html))
  ∧ String.length (diagnosis_prompt url html)
    ≤ 1813 + String.length url
      + String.length (page_title url (html_parser html)).
Proof.
  unfold diagnosis_prompt. rewrite length_build_prompt.
  pose proof (length_str_take 1500
    (get_text " " true (extract_all ["script"; "style"] (html_parser html)))) as Hlen.
  fold (page_text (html_parser html)) in Hlen. lia.
Qed.

End more_on_the_diagnoser.

Lemma model_not_consulted_unless_200_witness :
  (∀ res, fetch_status 404 "gone" "https://a.com/x" headers 15 = Ok res →
          status_code res ≠ 200%Z)
  ∧ get_ai_diagnosis (fetch_status 404 "gone") (model_says "Thin content")
      "https://a.com/x"
    = get_ai_diagnosis (fetch_status 404 "gone") (λ _ _, Ok None) "https://a.com/x".
Proof.
  assert (H : ∀ res, fetch_status 404 "gone" "https://a.com/x" headers 15 = Ok res →
                     status_code res ≠ 200%Z)
    by (intros res [= <-]; discriminate).
  split; [exact H |].
  exact (model_not_consulted_unless_200 (fetch_status 404 "gone")
           (model_says "Thin content") (λ _ _, Ok None) "https://a.com/x" H).
Defined.

Lemma model_diagnosis_is_trimmed_witness :
  fetch_status 200 "page" "https://a.com/x" headers 15 = Ok (Page 200 "page")
  ∧ parser_rejects "page" = None
  ∧ strip (get_ai_diagnosis (fetch_status 200 "page") (model_says " Thin content. ")
             "https://a.com/x")
    = get_ai_diagnosis (fetch_status 200 "page") (model_says " Thin content. ")
        "https://a.com/x".
Proof.
  split; [reflexivity |]. split; [reflexivity |].
  apply (model_diagnosis_is_trimmed (fetch_status 200 "page")
           (model_says " Thin content. ") "https://a.com/x"
           (Page 200 "page") " Thin content. "); reflexivity.
Defined.



(** ** The audit script *)

Section reading_the_urls.
Implicit Types (s u piece : string) (c : ascii).

Lemma chars_cons c s : chars (String c s) = c :: chars s.
Proof. reflexivity. Qed.

Lemma split_lines_not_nil s : split_lines s ≠ [].
Proof.
  destruct s as [|c s]; simpl; [done |].
  destruct (Ascii.eqb c newline); [done |]. by destruct (split_lines s).
Qed.

(** The pieces of a split have the characters of the string, without
    the newlines. *)
Lemma chars_split_lines s piece c :
  piece ∈ split_lines s → c ∈ chars piece → c ∈ chars s ∧ c ≠ newline.
Proof.
  revert piece. induction s as [|d s IH]; intros piece; simpl.
  - intros ->%list_elem_of_singleton Hc. inversion Hc.
  - rewrite chars_cons. destruct (Ascii.eqb d newline) eqn:Hd.
    + intros [->|Hpiece]%elem_of_cons Hc; [inversion Hc |].
      destruct (IH piece Hpiece Hc). split; [by right | done].
    + apply Ascii.eqb_neq in Hd.
      destruct (split_lines s) as [|first rest] eqn:Hsplit.
      * intros ->%list_elem_of_singleton [->|Hc]%elem_of_cons;
          [split; [by left | done] | inversion Hc].
      * intros [->|Hpiece]%elem_of_cons Hc.
        -- rewrite chars_cons in Hc. apply elem_of_cons in Hc as [->|Hc].
           ++ split; [by left | done].
           ++ destruct (IH first) as [? ?]; [by left | done |].
              split; [by right | done].
        -- destruct (IH piece) as [? ?]; [by right | done |].
           split; [by right | done].
Qed.

(** Every character of the string is a newline or is in a piece. *)
Lemma chars_in_split_lines s c :
  c ∈ chars s → c = newline ∨ ∃ piece, piece ∈ split_lines s ∧ c ∈ chars piece.
Proof.
  induction s as [|d s IH]; simpl; [inversion 1 |].
  rewrite chars_cons. destruct (Ascii.eqb d newline) eqn:Hd.
  - apply Ascii.eqb_eq in Hd as ->.
    intros [->|Hc]%elem_of_cons; [by left |].
    destruct (IH Hc) as [->|(piece & ? & ?)]; [by left |].
    right. exists piece. split; [by right | done].
  - destruct (split_lines s) as [|first rest] eqn:Hsplit.
    + by apply split_lines_not_nil in Hsplit.
    + intros [->|Hc]%elem_of_cons.
      * right. exists (String d first). split; [by left |].
        rewrite chars_cons. by left.
      * destruct (IH Hc) as [->|(piece & [->|Hpiece]%elem_of_cons & ?)]; [by left | |].
        -- right. exists (String d first). split; [by left |].
           rewrite chars_cons. by right.
        -- right. exists piece. split; [by right | done].
Qed.

Lemma split_lines_one_line u : newline ∉ chars u → split_lines u = [u].
Proof.
  induction u as [|c u IH]; simpl; [done |]. rewrite chars_cons.
  intros Hfree. destruct (Ascii.eqb c newline) eqn:Hc.
  - apply Ascii.eqb_eq in Hc as ->. exfalso. apply Hfree. by left.
  - rewrite IH; [done |]. intros ?. apply Hfree. by right.
Qed.

Lemma split_lines_first_line u s :
  newline ∉ chars u → split_lines (u +:+ nl +:+ s) = u :: split_lines s.
Proof.
  induction u as [|c u IH]; [done |]. rewrite chars_cons, append_cons.
  intros Hfree. simpl. destruct (Ascii.eqb c newline) eqn:Hc.
  - apply Ascii.eqb_eq in Hc as ->. exfalso. apply Hfree. by left.
  - rewrite IH; [done |]. intros ?. apply Hfree. by right.
Qed.

Lemma split_lines_join (urls : list string) :
  urls ≠ [] → Forall (λ u, newline ∉ chars u) urls →
  split_lines (str_join nl urls) = urls.
Proof.
  induction urls as [|u urls IH]; [done |]. intros _ Hfree.
  apply Forall_cons in Hfree as [Hu Hfree].
  destruct urls as [|v urls].
  - simpl. by apply split_lines_one_line.
  - change (str_join nl (u :: v :: urls)) with (u +:+ nl +:+ str_join nl (v :: urls)).
    rewrite split_lines_first_line by done. by rewrite IH.
Qed.

Lemma parse_urls_clean (url_input u : string) :
  u ∈ parse_urls url_input → clean_url u.
Proof.
  unfold parse_urls. intros (piece & -> & Hpiece)%list_elem_of_fmap.
  apply list_elem_of_filter in Hpiece as [Hnonempty Hpiece].
  split_and!.
  - intros Hempty. by rewrite Hempty in Hnonempty.
  - apply strip_idemp.
  - intros Hnl%chars_strip. by destruct (chars_split_lines _ _ _ Hpiece Hnl).
Qed.

Lemma parse_urls_of_clean_lines (urls : list string) :
  Forall clean_url urls → parse_urls (str_join nl urls) = urls.
Proof.
  intros Hclean. destruct urls as [|u urls]; [done |].
  unfold parse_urls. rewrite split_lines_join; [| done |].
  - induction Hclean as [|v vs (Hne & Hstrip & _) _ IH]; [done |].
    rewrite filter_cons_True.
    + rewrite fmap_cons, IH. by rewrite Hstrip.
    + rewrite Hstrip. by destruct v.
  - eapply Forall_impl; [done |]. by intros v (_ & _ & ?).
Qed.
End reading_the_urls.

(** X12.  Every URL read from the text area is not empty, is trimmed
    (trimming it again changes nothing) and has no newline in it. *)
Theorem parsed_urls_are_clean (url_input u : string) :
  u ∈ parse_urls url_input →
  u ≠ EmptyString ∧ strip u = u ∧ newline ∉ chars u.
Proof. apply parse_urls_clean. Qed.

Lemma parsed_urls_are_clean_witness :
  "b.com/y" ∈ parse_urls (" a.com/x " +:+ nl +:+ nl +:+ "b.com/y ")
  ∧ strip "b.com/y" = "b.com/y".
Proof.
  assert (H : "b.com/y" ∈ parse_urls (" a.com/x " +:+ nl +:+ nl +:+ "b.com/y "))
    by (right; by left).
  split; [exact H |].
  exact (proj1 (proj2 (parsed_urls_are_clean _ _ H))).
Defined.

(** X13.  URLs that are not empty, trimmed and without a newline,
    written one per line, are read back as the same list. *)
Theorem parse_urls_round_trip (urls : list string) :
  Forall clean_url urls →
  parse_urls (str_join nl urls) = urls.
Proof. apply parse_urls_of_clean_lines. Qed.

Lemma parse_urls_round_trip_witness :
  Forall clean_url ["a.com/x"; "b.com/y"]
  ∧ parse_urls (str_join nl ["a.com/x"; "b.com/y"]) = ["a.com/x"; "b.com/y"].
Proof.
  assert (H : Forall clean_url ["a.com/x"; "b.com/y"]).
  { repeat apply Forall_cons_2; [| | apply Forall_nil_2];
      (split_and!; [done | reflexivity | by apply (bool_decide_unpack _)]). }
  split; [exact H |].
  exact (parse_urls_round_trip ["a.com/x"; "b.com/y"] H).
Defined.

(** X14.  No URL is read exactly when the text area holds white space
    only (newlines included). *)
Theorem no_urls_iff_blank (url_input : string) :
  parse_urls url_input = [] ↔ ∀ c, c ∈ chars url_input → isspace c = true.
Proof.
  unfold parse_urls. split.
  - intros Hnil%fmap_nil_inv c Hc.
    destruct (chars_in_split_lines _ _ Hc) as [->|(piece & Hpiece & Hin)]; [done |].
    assert (Hstrip : strip piece = EmptyString).
    { destruct (strip piece) eqn:Hs; [done |].
      exfalso. eapply (filter_nil_not_elem_of _ _ piece Hnil); [| done].
      by rewrite Hs. }
    by eapply strip_empty.
  - intros Hblank.
    assert (Hpieces : ∀ pieces : list string,
      (∀ piece, piece ∈ pieces → strip piece = EmptyString) →
      filter (λ u, nonempty (strip u)) pieces = []).
    { induction pieces as [|piece pieces IH]; [done |]. intros Hall.
      rewrite filter_cons_False.
      - apply IH. intros ? ?. apply Hall. by right.
      - rewrite Hall; [by intros [] | by left]. }
    rewrite Hpieces; [done |].
    intros piece Hpiece. apply strip_empty. intros c Hc.
    apply Hblank. by destruct (chars_split_lines _ _ _ Hpiece Hc).
Qed.

(** X15.  For URLs read from the text area the query that is sent is
    the URL itself, as it is the key of the mapping, between double
    quotes. *)
Theorem parsed_urls_are_queried_verbatim (url_input : string)
    (batch_urls : list string) :
  batch_urls ⊆ parse_urls url_input →
  make_payload batch_urls
  = JArr ((λ u, JObj [("q", JStr (dquote +:+ u +:+ dquote))]) <$> batch_urls).
Proof.
  intros Hsub. unfold make_payload. f_equal.
  apply list_fmap_ext. intros _ u Hu%list_elem_of_lookup_2.
  by destruct (parse_urls_clean url_input u (Hsub _ Hu)) as (_ & -> & _).
Qed.

Lemma parsed_urls_are_queried_verbatim_witness :
  ["a.com/x"] ⊆ parse_urls (" a.com/x " +:+ nl +:+ "b.com/y")
  ∧ make_payload ["a.com/x"]
    = JArr [JObj [("q", JStr (dquote +:+ "a.com/x" +:+ dquote))]].
Proof.
  assert (H : ["a.com/x"] ⊆ parse_urls (" a.com/x " +:+ nl +:+ "b.com/y")).
  { intros u ->%list_elem_of_singleton. by left. }
  split; [exact H |].
  exact (parsed_urls_are_queried_verbatim _ ["a.com/x"] H).
Defined.

Section the_audit_loop.
Context {soup tag : Type} `{!BeautifulSoup soup tag}.
Variables (index_results : gmap string bool).
Variables (fetch : nat -> fetcher) (client : nat -> llm).
Implicit Types (st : audit_state) (i k : nat) (u url : string).

Lemma audit_body_eq st i url :
  audit_body index_results fetch client st i url
  = AuditState
      (final_data st ++ [audit_row index_results fetch client i url])
      (audit_trace st ++ audit_events (get_verdict index_results url) url).
Proof.
  unfold audit_body, audit_row, audit_events.
  by destruct (get_verdict index_results url).
Qed.

Lemma audit_loop_final_data i (urls : list string) st :
  final_data (audit_loop index_results fetch client i urls st)
  = final_data st ++ imap (λ k, audit_row index_results fetch client (i + k)) urls.
Proof.
  revert i st. induction urls as [|url urls IH]; intros i st; simpl.
  - by rewrite app_nil_r.
  - rewrite IH, audit_body_eq. simpl. rewrite <- app_assoc. simpl.
    rewrite Nat.add_0_r. do 2 f_equal.
    apply imap_ext. intros k u _. simpl. f_equal. lia.
Qed.

Lemma audit_loop_trace i (urls : list string) st :
  audit_trace (audit_loop index_results fetch client i urls st)
  = audit_trace st
    ++ flat_map (λ u, audit_events (get_verdict index_results u) u) urls.
Proof.
  revert i st. induction urls as [|url urls IH]; intros i st; simpl.
  - by rewrite app_nil_r.
  - rewrite IH, audit_body_eq. simpl. by rewrite <- app_assoc.
Qed.

Lemma audit_row_lookup (urls : list string) k :
  final_data (audit_loop index_results fetch client 0 urls (AuditState [] [])) !! k
  = audit_row index_results fetch client k <$> urls !! k.
Proof. rewrite audit_loop_final_data. simpl. by rewrite list_lookup_imap. Qed.

(** The rows labelled indexed, the rows labelled not indexed and the
    pauses of the loop are counted by the verdicts of the URLs. *)
Lemma audit_counts_from i (urls : list string) st :
  let audit := audit_loop index_results fetch client i urls st in
  length (filter (λ r, Indexed r = YES) (final_data audit))
  = length (filter (λ r, Indexed r = YES) (final_data st))
    + length (filter (λ u, get_verdict index_results u = true) urls)
  ∧ length (filter (λ r, Indexed r = NO) (final_data audit))
    = length (filter (λ r, Indexed r = NO) (final_data st))
      + length (filter (λ u, get_verdict index_results u = false) urls)
  ∧ length (filter is_pause (audit_trace audit))
    = length (filter is_pause (audit_trace st))
      + length (filter (λ u, get_verdict index_results u = false) urls).
Proof.
  revert i st. induction urls as [|url urls IH]; intros i st; simpl.
  - split_and!; lia.
  - destruct (IH (S i) (audit_body index_results fetch client st i url))
      as (IHyes & IHno & IHpause).
    rewrite IHyes, IHno, IHpause, audit_body_eq. simpl.
    rewrite !filter_app, !length_app, !filter_cons.
    unfold audit_row, audit_events.
    destruct (get_verdict index_results url) eqn:Hverdict; simpl.
    + repeat case_decide; try done. simpl. split_and!; lia.
    + repeat case_decide; try done. simpl. split_and!; lia.
Qed.
End the_audit_loop.


Section the_audit.
Context {soup tag : Type} `{!BeautifulSoup soup tag}.
Implicit Types (index_results : gmap string bool).
Implicit Types (fetch : nat -> fetcher) (client : nat -> llm).
Implicit Types (urls : list string) (u url : string) (k : nat).

(** X16.  The table has one row per URL, in the order of the URLs,
    repeated URLs included. *)
Theorem audit_rows_follow_urls index_results fetch client urls :
  URL <$> final_data
            (audit_loop index_results fetch client 0 urls (AuditState [] []))
  = urls.
Proof.
  apply list_eq. intros k.
  rewrite list_lookup_fmap, audit_row_lookup.
  destruct (urls !! k) as [u|]; [| done]. simpl. unfold audit_row.
  by destruct (get_verdict index_results u).
Qed.

(** X17.  The row of a URL is labelled indexed exactly when the mapping
    has the verdict [True] for it; a URL with the verdict [False] or
    with no verdict at all is labelled not indexed. *)
Theorem audit_labels_reflect_verdicts index_results fetch client urls k u :
  urls !! k = Some u →
  ∃ r, final_data (audit_loop index_results fetch client 0 urls (AuditState [] []))
         !! k = Some r
       ∧ URL r = u
       ∧ (Indexed r = YES ↔ index_results !! u = Some true)
       ∧ (Indexed r = NO ↔
            index_results !! u = Some false ∨ index_results !! u = None).
Proof.
  intros Hk. rewrite audit_row_lookup, Hk. simpl. eexists. split; [done |].
  unfold audit_row, get_verdict.
  destruct (index_results !! u) as [[|]|]; simpl; split_and!; try done;
    naive_solver.
Qed.

(** X18.  The loop calls [get_ai_diagnosis] for the URLs that are not
    indexed and for no other, in the order of the URLs, and pauses two
    seconds after each call; it makes as many pauses as the table has
    rows labelled not indexed. *)
Theorem diagnoses_follow_verdicts index_results fetch client urls :
  let audit := audit_loop index_results fetch client 0 urls (AuditState [] []) in
  audit_trace audit
  = flat_map (λ u, if get_verdict index_results u then []
                   else [Diagnose u; Pause 2]) urls
  ∧ length (filter is_pause (audit_trace audit))
    = length (filter (λ r, Indexed r = NO) (final_data audit)).
Proof.
  intros audit. split.
  - unfold audit. by rewrite audit_loop_trace.
  - destruct (audit_counts_from index_results fetch client 0 urls (AuditState [] []))
      as (_ & Hno & Hpause).
    unfold audit. rewrite Hno, Hpause. done.
Qed.

(** X19.  The diagnosis cell of a row is never empty.  For an indexed
    URL it is ["N/A (Indexed)"]; for a URL that is not indexed it is
    the diagnosis, or ["N/A (Indexed)"] when the diagnosis is the empty
    string. *)
Theorem diagnosis_cell_filled index_results fetch client urls :
  let audit := audit_loop index_results fetch client 0 urls (AuditState [] []) in
  Forall (λ r, AI_Diagnosis r ≠ EmptyString
               ∧ (Indexed r = YES → AI_Diagnosis r = NOT_APPLICABLE))
         (final_data audit)
  ∧ (∀ k u, urls !! k = Some u → get_verdict index_results u = false →
       ∃ r, final_data audit !! k = Some r
            ∧ AI_Diagnosis r
              = let diag := get_ai_diagnosis (fetch k) (client k) u in
                if nonempty diag then diag else NOT_APPLICABLE).
Proof.
  intros audit. split.
  - apply Forall_lookup. intros k r. unfold audit. rewrite audit_row_lookup.
    destruct (urls !! k) as [u|]; [| done]. simpl. intros [= <-].
    unfold audit_row. destruct (get_verdict index_results u); simpl.
    + done.
    + split; [by destruct (get_ai_diagnosis (fetch k) (client k) u) | done].
  - intros k u Hk Hverdict. unfold audit. rewrite audit_row_lookup, Hk. simpl.
    eexists. split; [done |]. unfold audit_row. rewrite Hverdict. simpl.
    by destruct (get_ai_diagnosis (fetch k) (client k) u).
Qed.

Lemma length_filter_verdicts index_results urls :
  length (filter (λ u, get_verdict index_results u = true) urls)
  + length (filter (λ u, get_verdict index_results u = false) urls)
  = length urls.
Proof.
  induction urls as [|u urls IH]; [done |]. rewrite !filter_cons.
  destruct (get_verdict index_results u); repeat case_decide; try done; simpl; lia.
Qed.

Lemma get_verdict_true index_results u :
  get_verdict index_results u = true ↔ index_results !! u = Some true.
Proof.
  unfold get_verdict. destruct (index_results !! u) as [[|]|]; simpl; naive_solver.
Qed.

(** What the script does when the button is pressed with both keys and
    at least one URL. *)
Lemma start_bulk_audit_audited (be : backend) fetch
    (make_client : string -> nat -> llm) (serper_key gemini_key url_input : string)
    (bulk : state) (audit : audit_state) (n m : Z) :
  start_bulk_audit be fetch make_client serper_key gemini_key url_input
    = Audited bulk audit n m →
  let urls := parse_urls url_input in
  serper_key ≠ EmptyString ∧ gemini_key ≠ EmptyString ∧ urls ≠ []
  ∧ bulk = check_index_bulk_run be urls serper_key
  ∧ audit = audit_loop (indexed_map bulk) fetch (make_client gemini_key) 0 urls
              (AuditState [] [])
  ∧ n = Z.of_nat (length (filter (λ r, Indexed r = YES) (final_data audit)))
  ∧ m = (Z.of_nat (length urls) - n)%Z.
Proof.
  intros Hstart. unfold start_bulk_audit in Hstart. cbv zeta in *.
  set (urls := parse_urls url_input) in *.
  destruct serper_key as [|c1 k1]; [done |].
  destruct gemini_key as [|c2 k2]; [done |]. simpl in Hstart.
  destruct urls as [|u rest] eqn:Hurls; [done |].
  injection Hstart as <- <- <- <-. by split_and!.
Qed.

(** X20.  The two numbers shown under the table add up to the number
    of URLs and neither is negative; the first counts the URLs whose
    verdict is [True], the second is the number of pauses, hence of
    diagnoses, that the loop made. *)
Theorem metrics_add_up (be : backend) fetch (make_client : string -> nat -> llm)
    (serper_key gemini_key url_input : string)
    (bulk : state) (audit : audit_state) (n m : Z) :
  start_bulk_audit be fetch make_client serper_key gemini_key url_input
    = Audited bulk audit n m →
  (n + m = Z.of_nat (length (parse_urls url_input)))%Z
  ∧ (0 ≤ n)%Z ∧ (0 ≤ m)%Z
  ∧ n = Z.of_nat (length (filter (λ u, indexed_map bulk !! u = Some true)
                                 (parse_urls url_input)))
  ∧ m = Z.of_nat (length (filter is_pause (audit_trace audit))).
Proof.
  intros (_ & _ & _ & _ & -> & -> & ->)%start_bulk_audit_audited.
  destruct (audit_counts_from (indexed_map bulk) fetch (make_client gemini_key) 0
              (parse_urls url_input) (AuditState [] [])) as (Hyes & _ & Hpause).
  pose proof (length_filter_verdicts (indexed_map bulk) (parse_urls url_input)) as Hsum.
  simpl in Hyes, Hpause. rewrite Hyes, Hpause.
  rewrite (list_filter_iff _ (λ u, indexed_map bulk !! u = Some true))
    by (intros u; apply get_verdict_true).
  rewrite (list_filter_iff _ (λ u, indexed_map bulk !! u = Some true)) in Hsum
    by (intros u; apply get_verdict_true).
  split_and!; lia.
Qed.

(** X21.  The script reports missing keys exactly when one of the two
    keys is empty, and asks for a URL exactly when both keys are there
    and no URL was read.  Otherwise it checks the URLs read from the
    text area with the search key, sending at least one request, and
    audits them with the verdicts of that check. *)
Theorem audit_requires_keys_and_urls (be : backend) fetch
    (make_client : string -> nat -> llm) (serper_key gemini_key url_input : string) :
  let result :=
    start_bulk_audit be fetch make_client serper_key gemini_key url_input in
  (result = KeysMissing ↔ serper_key = EmptyString ∨ gemini_key = EmptyString)
  ∧ (result = NoUrls ↔
       serper_key ≠ EmptyString ∧ gemini_key ≠ EmptyString
       ∧ parse_urls url_input = [])
  ∧ (∀ bulk audit n m, result = Audited bulk audit n m →
       serper_key ≠ EmptyString ∧ gemini_key ≠ EmptyString
       ∧ parse_urls url_input ≠ []
       ∧ bulk = check_index_bulk_run be (parse_urls url_input) serper_key
       ∧ audit = audit_loop (indexed_map bulk) fetch (make_client gemini_key) 0
                   (parse_urls url_input) (AuditState [] [])
       ∧ posts (trace bulk) ≠ []).
Proof.
  intros result. split_and!.
  - unfold result, start_bulk_audit.
    destruct serper_key as [|c1 k1]; [naive_solver |].
    destruct gemini_key as [|c2 k2]; [naive_solver |]. simpl.
    destruct (parse_urls url_input); naive_solver.
  - unfold result, start_bulk_audit.
    destruct serper_key as [|c1 k1]; [naive_solver |].
    destruct gemini_key as [|c2 k2]; [naive_solver |]. simpl.
    destruct (parse_urls url_input); naive_solver.
  - intros bulk audit n m
      (Hk1 & Hk2 & Hurls & Hbulk & Haudit & _ & _)%start_bulk_audit_audited.
    split_and!; try done.
    rewrite Hbulk, posts_run. intros Hnil%fmap_nil_inv.
    pose proof (length_batches (parse_urls url_input)) as Hlen.
    rewrite Hnil in Hlen.
    pose proof (proj2 (lt_div_up 0 (length (parse_urls url_input)))) as Hpos.
    destruct (parse_urls url_input) as [|u rest]; [done |].
    cbn [length] in Hlen, Hpos. lia.
Qed.

(** X22.  When the button starts an audit and the backend call of every
    batch fails, every row is labelled not indexed, every URL is
    diagnosed, and the numbers shown are 0 indexed and all not
    indexed. *)
Theorem failed_backend_audits_every_url (be : backend) fetch
    (make_client : string -> nat -> llm) (serper_key gemini_key url_input : string)
    (bulk : state) (audit : audit_state) (n m : Z) :
  start_bulk_audit be fetch make_client serper_key gemini_key url_input
    = Audited bulk audit n m →
  (∀ k batch, batches (parse_urls url_input) !! k = Some batch →
              failed_response batch (be k serper_key (make_payload batch))) →
  n = 0%Z
  ∧ m = Z.of_nat (length (parse_urls url_input))
  ∧ Forall (λ r, Indexed r = NO) (final_data audit)
  ∧ audit_trace audit
    = flat_map (λ u, [Diagnose u; Pause 2]) (parse_urls url_input).
Proof.
  intros (_ & _ & _ & Hbulk & -> & -> & ->)%start_bulk_audit_audited Hfail.
  set (urls := parse_urls url_input) in *.
  assert (Hfalse : ∀ u, u ∈ urls → get_verdict (indexed_map bulk) u = false).
  { intros u Hu. unfold get_verdict.
    pose proof (run_all_failed be urls serper_key Hfail u Hu) as Hlookup.
    unfold check_index_bulk in Hlookup. rewrite <- Hbulk in Hlookup.
    by rewrite Hlookup. }
  destruct (audit_counts_from (indexed_map bulk) fetch (make_client gemini_key) 0
              urls (AuditState [] [])) as (Hyes & _ & _).
  assert (Hnone : filter (λ u, get_verdict (indexed_map bulk) u = true) urls = []).
  { assert (Hall : ∀ l : list string,
      (∀ u, u ∈ l → get_verdict (indexed_map bulk) u = false) →
      filter (λ u, get_verdict (indexed_map bulk) u = true) l = []).
    { induction l as [|u rest IH]; [done |]. intros Hl.
      rewrite filter_cons_False.
      - apply IH. intros v Hv. apply Hl. by right.
      - rewrite Hl; [done | by left]. }
    by apply Hall. }
  simpl in Hyes. rewrite Hyes, Hnone. simpl. split_and!; [done | lia | |].
  - apply Forall_lookup. intros k r. rewrite audit_row_lookup.
    destruct (urls !! k) as [u|] eqn:Hk; [| done]. simpl. intros [= <-].
    unfold audit_row. rewrite Hfalse; [done |]. by eapply list_elem_of_lookup_2.
  - rewrite audit_loop_trace. simpl.
    assert (Hall : ∀ l : list string,
      (∀ u, u ∈ l → get_verdict (indexed_map bulk) u = false) →
      flat_map (λ u, audit_events (get_verdict (indexed_map bulk) u) u) l
      = flat_map (λ u, [Diagnose u; Pause 2]) l).
    { induction l as [|u rest IH]; [done |]. intros Hl. simpl.
      rewrite IH by (intros v Hv; apply Hl; by right).
      rewrite Hl; [done | by left]. }
    by apply Hall.
Qed.
End the_audit.

Lemma audit_labels_reflect_verdicts_witness :
  ["a.com/x"; "a.com/y"] !! 1 = Some "a.com/y"
  ∧ ∃ r, final_data
           (audit_loop (soup := list node) (tag := node)
              {["a.com/x" := true]} (λ _, fetch_status 200 "page")
              (λ _, model_says " Thin content. ") 0 ["a.com/x"; "a.com/y"]
              (AuditState [] [])) !! 1 = Some r
         ∧ URL r = "a.com/y"
         ∧ Indexed r = NO.
Proof.
  split; [reflexivity |].
  destruct (audit_labels_reflect_verdicts (soup := list node) (tag := node)
              {["a.com/x" := true]} (λ _, fetch_status 200 "page")
              (λ _, model_says " Thin content. ") ["a.com/x"; "a.com/y"] 1 "a.com/y")
    as (r & Hr & Hurl & _ & Hno); [reflexivity |].
  exists r. split; [exact Hr |]. split; [exact Hurl |].
  apply Hno. right. reflexivity.
Defined.

Lemma metrics_add_up_witness :
  ∃ bulk audit,
    start_bulk_audit (soup := list node) (tag := node)
      one_result_set (λ _, fetch_status 200 "page")
      (λ _ _, model_says " Thin content. ") "search key" "model key"
      ("a.com/x" +:+ nl +:+ "a.com/y")
    = Audited bulk audit 1 1
    ∧ (1 + 1 = Z.of_nat (length (parse_urls ("a.com/x" +:+ nl +:+ "a.com/y"))))%Z.
Proof.
  eexists _, _. split; [reflexivity |].
  refine (proj1 (metrics_add_up (soup := list node) (tag := node)
                   one_result_set (λ _, fetch_status 200 "page")
                   (λ _ _, model_says " Thin content. ") "search key" "model key"
                   ("a.com/x" +:+ nl +:+ "a.com/y") _ _ 1 1 _)).
  reflexivity.
Defined.

Lemma failed_backend_audits_every_url_witness :
  ∃ bulk audit n m,
    start_bulk_audit (soup := list node) (tag := node)
      unreachable (λ _, fetch_status 200 "page")
      (λ _ _, model_says " Thin content. ") "search key" "model key"
      ("a.com/x" +:+ nl +:+ "a.com/y")
    = Audited bulk audit n m
    ∧ (∀ k batch,
         batches (parse_urls ("a.com/x" +:+ nl +:+ "a.com/y")) !! k = Some batch →
         failed_response batch (unreachable k "search key" (make_payload batch)))
    ∧ n = 0%Z
    ∧ m = Z.of_nat (length (parse_urls ("a.com/x" +:+ nl +:+ "a.com/y"))).
Proof.
  eexists _, _, _, _. split; [reflexivity |].
  assert (Hfail : ∀ k batch,
    batches (parse_urls ("a.com/x" +:+ nl +:+ "a.com/y")) !! k = Some batch →
    failed_response batch (unreachable k "search key" (make_payload batch)))
    by (intros; apply failed_transport).
  split; [exact Hfail |].
  destruct (failed_backend_audits_every_url (soup := list node) (tag := node)
              unreachable (λ _, fetch_status 200 "page")
              (λ _ _, model_says " Thin content. ") "search key" "model key"
              ("a.com/x" +:+ nl +:+ "a.com/y") _ _ _ _ eq_refl Hfail)
    as (Hn & Hm & _).
  split; [exact Hn | exact Hm].
Defined.
